(** * songbattle: the Elo rating engine and the matchmaker

    A shallow embedding of the rating and matchmaking core of songbattle
    (packages [models], [store], [elo] and [matchmaker]) together with the
    properties its design document states about it.

    Conventions of the embedding.
    - Go's [int] and [int64] are 64-bit two's complement integers: they are
      values of [Z] and every arithmetic operation of the source is followed
      by [wrap64].
    - [float64] is idealised.  The Elo arithmetic ([math.Pow], division,
      [math.Round]) is carried out over the real numbers [R]; the two
      comparisons of the matchmaker, whose operands are quotients of
      integers, are carried out over the rationals [Q] and stay executable.
      Rounding error of the binary64 operations is not modelled.
    - The SQLite store is a record of tables.  A statement that writes
      ([db.Exec]) may fail: the outcomes of the coming writes are a script
      carried by the world.  [time.Now] reads a clock carried by the world.
    - [math/rand] is a script of raw draws consumed by [Intn] and
      [Float64]. *)

From Stdlib Require Import ZArith QArith Reals Lra Lia String List.
From stdpp Require Import base option list strings gmap.

Local Open Scope Z_scope.

(** ** Go integers *)

Module GoInt.

Definition MaxInt : Z := 2 ^ 63 - 1.
Definition MinInt : Z := - 2 ^ 63.

(** Two's complement reduction to the range of a 64-bit signed integer. *)
Definition wrap64 (x : Z) : Z := (x + 2 ^ 63) mod 2 ^ 64 - 2 ^ 63.

Definition in_int (x : Z) : Prop := MinInt <= x <= MaxInt.

Definition add (x y : Z) : Z := wrap64 (x + y).
Definition sub (x y : Z) : Z := wrap64 (x - y).
Definition neg (x : Z) : Z := wrap64 (- x).
Definition incr (x : Z) : Z := wrap64 (x + 1).

End GoInt.

(** ** Idealised [float64] *)

Module GoFloat.

Local Open Scope R_scope.

(** [math.Round]: the nearest integer, halves away from zero. *)
Definition Round (x : R) : Z :=
  if Rle_dec 0 x then Zfloor (x + / 2) else (- Zfloor (- x + / 2))%Z.

(** [math.Pow(10, y)]. *)
Definition Pow10 (y : R) : R := Rpower 10 y.

End GoFloat.

(** ** Package [models] *)

Module models.

Record Track := mkTrack {
  ID : Z;
  SpotifyID : string;
  Name : string;
  Artist : string;
}.

Record Rating := mkRating {
  TrackID : Z;
  Elo : Z;
  Wins : Z;
  Losses : Z;
  Draws : Z;
  LastSeenAt : Z;
}.

Record Duel := mkDuel {
  DuelID : Z;
  LeftTrackID : Z;
  RightTrackID : Z;
  WinnerTrackID : option Z;
  CreatedAt : Z;
}.

Record TrackWithRating := mkTrackWithRating {
  track : Track;
  rating : Rating;
}.

Definition WinnerLeft : string := "left".
Definition WinnerRight : string := "right".
Definition WinnerDraw : string := "draw".
Definition WinnerSkip : string := "skip".

Definition GetTotalBattles (r : Rating) : Z :=
  GoInt.add (GoInt.add (Wins r) (Losses r)) (Draws r).

Definition GetWinRate (r : Rating) : R :=
  let total := GetTotalBattles r in
  if Z.eq_dec total 0 then 0%R
  else (IZR (Wins r) / IZR total * 100)%R.

End models.

(** ** Package [store] *)

Module store.
Import models.

(** The errors the store hands back: [sql.ErrNoRows] of a [Scan] that
    found no row, and the failure of a statement that writes. *)
Inductive Error : Set :=
| ErrNoRows
| ErrExec.

Inductive Result (A : Type) : Type :=
| Ok (a : A)
| Err (e : Error).
Arguments Ok {A} a.
Arguments Err {A} e.

(** A row of table [ratings] without its key [track_id]. *)
Record RatingRow := mkRatingRow {
  elo : Z;
  wins : Z;
  losses : Z;
  draws : Z;
  last_seen_at : Z;
}.

(** Table [ratings] is keyed by [track_id]; table [duels] grows at its
    end and numbers its rows with [duel_seq] (AUTOINCREMENT). *)
Record DB := mkDB {
  ratings : gmap Z RatingRow;
  duels : list Duel;
  duel_seq : Z;
}.

(** What a call runs in: the database, the outcomes of the coming write
    statements ([true]: the statement fails; an exhausted script means
    success), and the clock. *)
Record World := mkWorld {
  db : DB;
  faults : list bool;
  clock : Z;
}.

(** State and error: an error stops the call, the world reached so far
    stays. *)
Definition M (A : Type) : Type := World -> Result A * World.

#[global] Instance M_ret : MRet M := fun A a w => (Ok a, w).

#[global] Instance M_bind : MBind M := fun A B f m w =>
  match m w with
  | (Ok a, w') => f a w'
  | (Err e, w') => (Err e, w')
  end.

(** [time.Now()]: successive readings increase. *)
Definition Now : M Z := fun w =>
  (Ok (clock w), mkWorld (db w) (faults w) (clock w + 1)).

(** [db.Exec] of a statement whose effect on the tables is [upd]. *)
Definition Exec (upd : DB -> DB) : M unit := fun w =>
  match faults w with
  | true :: fs => (Err ErrExec, mkWorld (db w) fs (clock w))
  | false :: fs => (Ok tt, mkWorld (upd (db w)) fs (clock w))
  | [] => (Ok tt, mkWorld (upd (db w)) [] (clock w))
  end.

(** UPDATE ratings SET ... WHERE track_id = ?: the row of that key, if
    there is one, is replaced. *)
Definition row_of (r : Rating) : RatingRow :=
  mkRatingRow (Elo r) (Wins r) (Losses r) (Draws r) (LastSeenAt r).

Definition update_row (r : Rating) (d : DB) : DB :=
  match ratings d !! TrackID r with
  | Some _ =>
      mkDB (<[TrackID r := row_of r]> (ratings d)) (duels d) (duel_seq d)
  | None => d
  end.

Definition UpdateRating (r : Rating) : M unit := Exec (update_row r).

(** SELECT ... FROM ratings WHERE track_id = ?, then [Scan]. *)
Definition scan (trackID : Z) (row : RatingRow) : Rating :=
  mkRating trackID (elo row) (wins row) (losses row) (draws row)
           (last_seen_at row).

Definition stored (d : DB) (trackID : Z) : option Rating :=
  scan trackID <$> ratings d !! trackID.

Definition GetRating (trackID : Z) : M Rating := fun w =>
  match stored (db w) trackID with
  | Some r => (Ok r, w)
  | None => (Err ErrNoRows, w)
  end.

(** INSERT INTO duels: the row gets the next identifier. *)
Definition insert_duel (d : Duel) (s : DB) : DB :=
  let id := duel_seq s + 1 in
  mkDB (ratings s)
       (duels s ++ [mkDuel id (LeftTrackID d) (RightTrackID d)
                           (WinnerTrackID d) (CreatedAt d)])
       id.

Definition CreateDuel (d : Duel) : M unit := Exec (insert_duel d).

End store.

(** ** Package [elo] *)

Module elo.
Import models store.

Definition InitialElo : Z := 1200.
Definition MaxK : Z := 32.
Definition MidK : Z := 24.
Definition MinK : Z := 16.
Definition NewPlayerThreshold : Z := 10.
Definition ExperiencedPlayerThreshold : Z := 30.

Definition CalculateExpectedScore (eloA eloB : Z) : R :=
  (1 / (1 + GoFloat.Pow10 (IZR (GoInt.sub eloB eloA) / 400)))%R.

Definition GetKFactor (totalBattles : Z) : Z :=
  if totalBattles <? NewPlayerThreshold then MaxK
  else if totalBattles <? ExperiencedPlayerThreshold then MidK
  else MinK.

(** [int(math.Round(newElo))]; the conversion keeps the integer. *)
Definition CalculateNewElo (oldElo : Z) (actualScore expectedScore : R)
    (kFactor : Z) : Z :=
  let newElo := (IZR oldElo + IZR kFactor * (actualScore - expectedScore))%R in
  GoFloat.Round newElo.

Definition recordDuelWithoutEloChange (leftTrackID rightTrackID : Z)
    (winnerID : option Z) : M unit :=
  t ← Now;
  CreateDuel (mkDuel 0 leftTrackID rightTrackID winnerID t).

(** The assignments to the two [Rating] structs between the computation
    of the new ratings and the writes. *)
Definition with_elo (r : Rating) (e seen : Z) : Rating :=
  mkRating (TrackID r) e (Wins r) (Losses r) (Draws r) seen.
Definition incr_wins (r : Rating) : Rating :=
  mkRating (TrackID r) (Elo r) (GoInt.incr (Wins r)) (Losses r) (Draws r)
           (LastSeenAt r).
Definition incr_losses (r : Rating) : Rating :=
  mkRating (TrackID r) (Elo r) (Wins r) (GoInt.incr (Losses r)) (Draws r)
           (LastSeenAt r).
Definition incr_draws (r : Rating) : Rating :=
  mkRating (TrackID r) (Elo r) (Wins r) (Losses r) (GoInt.incr (Draws r))
           (LastSeenAt r).

Definition count_result (result : string) (l r : Rating) : Rating * Rating :=
  if String.eqb result WinnerLeft then (incr_wins l, incr_losses r)
  else if String.eqb result WinnerRight then (incr_losses l, incr_wins r)
  else if String.eqb result WinnerDraw then (incr_draws l, incr_draws r)
  else (l, r).

Definition winner_of (result : string) (leftTrackID rightTrackID : Z)
    : option Z :=
  if String.eqb result WinnerLeft then Some leftTrackID
  else if String.eqb result WinnerRight then Some rightTrackID
  else None.

(** The part of [ProcessDuel] below its [switch], reached with the two
    scores set. *)
Definition applyScores (leftTrackID rightTrackID : Z) (result : string)
    (leftRating rightRating : Rating) (leftScore rightScore : R) : M unit :=
  let leftExpected := CalculateExpectedScore (Elo leftRating) (Elo rightRating) in
  let rightExpected := CalculateExpectedScore (Elo rightRating) (Elo leftRating) in
  let leftK := GetKFactor (GetTotalBattles leftRating) in
  let rightK := GetKFactor (GetTotalBattles rightRating) in
  let newLeftElo := CalculateNewElo (Elo leftRating) leftScore leftExpected leftK in
  let newRightElo := CalculateNewElo (Elo rightRating) rightScore rightExpected rightK in
  tl ← Now;
  tr ← Now;
  let '(leftRating', rightRating') :=
    count_result result (with_elo leftRating newLeftElo tl)
                        (with_elo rightRating newRightElo tr) in
  UpdateRating leftRating';;
  UpdateRating rightRating';;
  recordDuelWithoutEloChange leftTrackID rightTrackID
    (winner_of result leftTrackID rightTrackID).

Definition ProcessDuel (leftTrackID rightTrackID : Z) (result : string)
    : M unit :=
  leftRating ← GetRating leftTrackID;
  rightRating ← GetRating rightTrackID;
  if String.eqb result WinnerLeft then
    applyScores leftTrackID rightTrackID result leftRating rightRating 1 0
  else if String.eqb result WinnerRight then
    applyScores leftTrackID rightTrackID result leftRating rightRating 0 1
  else if String.eqb result WinnerDraw then
    applyScores leftTrackID rightTrackID result leftRating rightRating
                (1 / 2) (1 / 2)
  else if String.eqb result WinnerSkip then
    recordDuelWithoutEloChange leftTrackID rightTrackID None
  else mret tt.

Record EloChange := mkEloChange {
  ChTrackID : Z;
  OldElo : Z;
  NewElo : Z;
  Change : Z;
  ChResult : string;
}.

Definition projectScores (leftTrackID rightTrackID : Z) (result : string)
    (leftRating rightRating : Rating) (leftScore rightScore : R)
    : list EloChange :=
  let leftExpected := CalculateExpectedScore (Elo leftRating) (Elo rightRating) in
  let rightExpected := CalculateExpectedScore (Elo rightRating) (Elo leftRating) in
  let leftK := GetKFactor (GetTotalBattles leftRating) in
  let rightK := GetKFactor (GetTotalBattles rightRating) in
  let newLeftElo := CalculateNewElo (Elo leftRating) leftScore leftExpected leftK in
  let newRightElo := CalculateNewElo (Elo rightRating) rightScore rightExpected rightK in
  [ mkEloChange leftTrackID (Elo leftRating) newLeftElo
                (GoInt.sub newLeftElo (Elo leftRating)) result;
    mkEloChange rightTrackID (Elo rightRating) newRightElo
                (GoInt.sub newRightElo (Elo rightRating)) result ].

Definition SimulateDuel (leftTrackID rightTrackID : Z) (result : string)
    : M (list EloChange) :=
  leftRating ← GetRating leftTrackID;
  rightRating ← GetRating rightTrackID;
  if String.eqb result WinnerLeft then
    mret (projectScores leftTrackID rightTrackID result leftRating rightRating 1 0)
  else if String.eqb result WinnerRight then
    mret (projectScores leftTrackID rightTrackID result leftRating rightRating 0 1)
  else if String.eqb result WinnerDraw then
    mret (projectScores leftTrackID rightTrackID result leftRating rightRating
                        (1 / 2) (1 / 2))
  else if String.eqb result WinnerSkip then
    mret [ mkEloChange leftTrackID (Elo leftRating) (Elo leftRating) 0 result;
           mkEloChange rightTrackID (Elo rightRating) (Elo rightRating) 0 result ]
  else mret [].

(** Go's [/] on [int]: the quotient truncated towards zero. *)
Definition int_div (x y : Z) : Z := GoInt.wrap64 (Z.quot x y).

(** One pass of the loop of [GetEloStats] over a track. *)
Definition stats_step (acc : Z * Z * Z) (t : TrackWithRating) : Z * Z * Z :=
  let '(totalElo, minElo, maxElo) := acc in
  let e := Elo (rating t) in
  (GoInt.add totalElo e,
   (if e <? minElo then e else minElo),
   (if maxElo <? e then e else maxElo)).

(** [GetEloStats], given what [GetAllTracksWithRatings] answered.  The map
    it builds holds integers only. *)
Definition GetEloStats (query : Result (list TrackWithRating))
    : Result (gmap string Z) :=
  match query with
  | Err e => Err e
  | Ok tracks =>
      match tracks with
      | [] =>
          Ok (<["total_tracks" := 0]> (<["average_elo" := 0]>
              (<["min_elo" := 0]> (<["max_elo" := 0]> ∅))))
      | first :: _ =>
          let '(totalElo, minElo, maxElo) :=
            fold_left stats_step tracks
                      (0, Elo (rating first), Elo (rating first)) in
          let n := Z.of_nat (length tracks) in
          Ok (<["total_tracks" := n]> (<["average_elo" := int_div totalElo n]>
              (<["min_elo" := minElo]> (<["max_elo" := maxElo]> ∅))))
      end
  end.

End elo.

(** ** Package [matchmaker] *)

Module matchmaker.
Import models store.

Definition EloRange : Z := 100.
(** The binary64 value of the constant 0.15. *)
Definition ExplorationRate : Q := 5404319552844595 # (2 ^ 55).
Definition MinBattlesForBalance : Z := 5.

(** The random source: the raw draws to come. *)
Definition Rand : Type := list Z.

(** What a call that consumes draws gives: [None] when the script of
    draws ran out before the call was over. *)
Definition Drawn (A : Type) : Type := option (A * Rand).

(** [rand.Intn(n)], for [n > 0]. *)
Definition Intn (n : Z) (rng : Rand) : Drawn Z :=
  match rng with
  | [] => None
  | d :: rest => Some (d mod n, rest)
  end.

(** [rand.Float64()]: a multiple of [2^-53] in [[0, 1)]. *)
Definition Float64 (rng : Rand) : Drawn Q :=
  match rng with
  | [] => None
  | d :: rest => Some (inject_Z (d mod 2 ^ 53) / inject_Z (2 ^ 53), rest)%Q
  end.

Definition abs (x : Z) : Z := if x <? 0 then GoInt.neg x else x.

Definition len {A : Type} (l : list A) : Z := Z.of_nat (length l).

(** [&l[i]]; the code only indexes with what [Intn (len l)] gave. *)
Definition at_index {A : Type} (l : list A) (i : Z) : option A :=
  l !! Z.to_nat i.

Definition battles (t : TrackWithRating) : Z := GetTotalBattles (rating t).

Definition is_underplayed (t : TrackWithRating) : bool :=
  battles t <? MinBattlesForBalance.

Definition is_experienced (t : TrackWithRating) : bool :=
  MinBattlesForBalance <=? battles t.

Definition shouldExplore (tracks : list TrackWithRating) (rng : Rand)
    : Drawn bool :=
  let underplayedTracks := len (List.filter is_underplayed tracks) in
  if Qlt_le_dec (1 # 2) (inject_Z underplayedTracks / inject_Z (len tracks))
  then Some (true, rng)
  else match Float64 rng with
       | Some (x, rng') =>
           Some (if Qlt_le_dec x ExplorationRate then true else false, rng')
       | None => None
       end.

(** One pass of a loop of [findBestOpponent] over a candidate; [ranged]
    tells the first loop from the second. *)
Definition consider (ranged : bool) (target : TrackWithRating)
    (acc : option TrackWithRating * Z) (candidate : TrackWithRating)
    : option TrackWithRating * Z :=
  let '(bestOpponent, bestDifference) := acc in
  if ID (track candidate) =? ID (track target) then acc
  else
    let eloDiff := abs (GoInt.sub (Elo (rating candidate)) (Elo (rating target))) in
    if (if ranged then eloDiff <=? EloRange else true) && (eloDiff <? bestDifference)
    then (Some candidate, eloDiff)
    else acc.

Definition findBestOpponent (target : TrackWithRating)
    (candidates : list TrackWithRating) : option TrackWithRating :=
  let first := fold_left (consider true target) candidates (None, GoInt.MaxInt) in
  match fst first with
  | Some c => Some c
  | None => fst (fold_left (consider false target) candidates first)
  end.

(** The loop of [randomMatch] that draws the right index again while it
    equals the left one. *)
Fixpoint redraw (n leftIdx rightIdx : Z) (rng : Rand) {struct rng} : Drawn Z :=
  if rightIdx =? leftIdx then
    match rng with
    | [] => None
    | d :: rest => redraw n leftIdx (d mod n) rest
    end
  else Some (rightIdx, rng).

Definition Pair : Type := option TrackWithRating * option TrackWithRating.

Definition randomMatch (tracks : list TrackWithRating) (rng : Rand)
    : Drawn Pair :=
  if len tracks <? 2 then Some ((None, None), rng)
  else
    match Intn (len tracks) rng with
    | None => None
    | Some (leftIdx, rng1) =>
        match Intn (len tracks) rng1 with
        | None => None
        | Some (rightIdx0, rng2) =>
            match redraw (len tracks) leftIdx rightIdx0 rng2 with
            | None => None
            | Some (rightIdx, rng3) =>
                Some ((at_index tracks leftIdx, at_index tracks rightIdx), rng3)
            end
        end
    end.

Definition balancedMatch (tracks : list TrackWithRating) (rng : Rand)
    : Drawn Pair :=
  let experienced := List.filter is_experienced tracks in
  if len experienced <? 2 then randomMatch tracks rng
  else
    match Intn (len experienced) rng with
    | None => None
    | Some (leftIdx, rng1) =>
        match at_index experienced leftIdx with
        | None => None
        | Some leftTrack =>
            Some ((Some leftTrack, findBestOpponent leftTrack experienced), rng1)
        end
    end.

(** The loop of [explorationMatch] that collects the opponents: the
    track at position [i] is kept when [int64(i) != leftTrack.Track.ID]. *)
Fixpoint othersFrom (i : Z) (leftID : Z) (tracks : list TrackWithRating)
    : list TrackWithRating :=
  match tracks with
  | [] => []
  | t :: rest =>
      if i =? leftID then othersFrom (i + 1) leftID rest
      else t :: othersFrom (i + 1) leftID rest
  end.

Definition explorationMatch (tracks : list TrackWithRating) (rng : Rand)
    : Drawn Pair :=
  let underplayed := List.filter is_underplayed tracks in
  if len underplayed =? 0 then balancedMatch tracks rng
  else
    match Intn (len underplayed) rng with
    | None => None
    | Some (leftIdx, rng1) =>
        match at_index underplayed leftIdx with
        | None => None
        | Some leftTrack =>
            let allOthers := othersFrom 0 (ID (track leftTrack)) tracks in
            if len allOthers =? 0 then Some ((None, None), rng1)
            else
              match Intn (len allOthers) rng1 with
              | None => None
              | Some (rightIdx, rng2) =>
                  Some ((Some leftTrack, at_index allOthers rightIdx), rng2)
              end
        end
    end.

Inductive MatchError : Set :=
| ErrQuery
| ErrTooFewTracks.

(** [GetNextMatch], given what [GetAllTracksWithRatings] answered.  The
    two pointers are handed back as they are, nil or not. *)
Definition GetNextMatch (query : Result (list TrackWithRating)) (rng : Rand)
    : Drawn (MatchError + Pair) :=
  match query with
  | Err _ => Some (inl ErrQuery, rng)
  | Ok allTracks =>
      if len allTracks <? 2 then Some (inl ErrTooFewTracks, rng)
      else
        match shouldExplore allTracks rng with
        | None => None
        | Some (explore, rng1) =>
            match (if explore then explorationMatch allTracks rng1
                   else balancedMatch allTracks rng1) with
            | None => None
            | Some ((Some l, Some r), rng2) => Some (inr (Some l, Some r), rng2)
            | Some (_, rng2) =>
                match randomMatch allTracks rng2 with
                | None => None
                | Some (p, rng3) => Some (inr p, rng3)
                end
            end
        end
  end.

Definition GetMatchQuality (left right : TrackWithRating) : string :=
  let eloDiff := abs (GoInt.sub (Elo (rating left)) (Elo (rating right))) in
  let leftBattles := GetTotalBattles (rating left) in
  let rightBattles := GetTotalBattles (rating right) in
  if (leftBattles <? MinBattlesForBalance)
     || (rightBattles <? MinBattlesForBalance) then "Exploration"
  else if eloDiff <=? 25 then "Parfait"
  else if eloDiff <=? 50 then "Excellent"
  else if eloDiff <=? EloRange then "Bon"
  else if eloDiff <=? 200 then "Moyen"
  else "Déséquilibré".

(** The loop of [GetRecentOpponents] over the duels still to scan, with
    the opponents collected and the set of those seen. *)
Fixpoint scanDuels (trackID limit : Z) (duels : list Duel)
    (opponents : list Z) (seen : gset Z) : list Z :=
  match duels with
  | [] => opponents
  | duel :: rest =>
      let visit (opponentID : Z) :=
        if bool_decide (opponentID ∈ seen)
        then scanDuels trackID limit rest opponents seen
        else
          let opponents' := opponents ++ [opponentID] in
          if limit <=? len opponents' then opponents'
          else scanDuels trackID limit rest opponents' ({[opponentID]} ∪ seen) in
      if LeftTrackID duel =? trackID then visit (RightTrackID duel)
      else if RightTrackID duel =? trackID then visit (LeftTrackID duel)
      else scanDuels trackID limit rest opponents seen
  end.

(** [GetRecentOpponents], given what [GetDuelHistory(limit * 2)]
    answered. *)
Definition GetRecentOpponents (history : Result (list Duel))
    (trackID limit : Z) : Result (list Z) :=
  match history with
  | Err e => Err e
  | Ok duels => Ok (scanDuels trackID limit duels [] ∅)
  end.

(** [AvoidRecentOpponent], given what the [GetDuelHistory] of its
    [GetRecentOpponents] answered. *)
Definition AvoidRecentOpponent (history : Result (list Duel))
    (target : TrackWithRating) (candidates : list TrackWithRating)
    : option TrackWithRating :=
  match GetRecentOpponents history (ID (track target)) 3 with
  | Err _ => findBestOpponent target candidates
  | Ok recentOpponents =>
      let recentMap : gset Z := list_to_set recentOpponents in
      let filtered :=
        List.filter
          (fun candidate =>
             negb (ID (track candidate) =? ID (track target))
             && negb (bool_decide (ID (track candidate) ∈ recentMap)))
          candidates in
      if len filtered =? 0 then findBestOpponent target candidates
      else findBestOpponent target filtered
  end.

(** What the map of [GetMatchmakingStats] holds: an [int] or a
    [float64]. *)
Inductive StatValue : Set :=
| IntValue (z : Z)
| FloatValue (q : Q).

Definition count_step (acc : Z * Z) (t : TrackWithRating) : Z * Z :=
  let '(newTracks, experiencedTracks) := acc in
  if GetTotalBattles (rating t) <? MinBattlesForBalance
  then (GoInt.incr newTracks, experiencedTracks)
  else (newTracks, GoInt.incr experiencedTracks).

(** [GetMatchmakingStats], given what [GetAllTracksWithRatings]
    answered. *)
Definition GetMatchmakingStats (query : Result (list TrackWithRating))
    : Result (gmap string StatValue) :=
  match query with
  | Err e => Err e
  | Ok tracks =>
      let '(newTracks, experiencedTracks) := fold_left count_step tracks (0, 0) in
      Ok (<["total_tracks" := IntValue (len tracks)]>
          (<["new_tracks" := IntValue newTracks]>
          (<["experienced_tracks" := IntValue experiencedTracks]>
          (<["exploration_rate" := FloatValue ExplorationRate]>
          (<["elo_range" := IntValue EloRange]> ∅)))))
  end.

End matchmaker.

(** ** Package [ui] *)

Module ui.

(** [truncate]; [None] is the panic of a slice with a negative bound. *)
Definition truncate (s : string) (max : Z) : option string :=
  if Z.of_nat (String.length s) <=? max then Some s
  else if max <=? 3 then
    if max <? 0 then None else Some (substring 0 (Z.to_nat max) s)
  else Some (substring 0 (Z.to_nat (max - 3)) s ++ "...")%string.

End ui.

(** * Properties *)

Import models store elo matchmaker.

(** ** Vocabulary of the statements *)

(** The first [n] write statements to come do not fail. *)
Definition writes_succeed (n : nat) (fs : list bool) : Prop :=
  forallb negb (take n fs) = true.

(** The four results a duel can have. *)
Definition is_outcome (result : string) : bool :=
  String.eqb result WinnerLeft || String.eqb result WinnerRight
  || String.eqb result WinnerDraw || String.eqb result WinnerSkip.

(** A store of two tracks, 1 and 2, rated [a] and [b], never played. *)
Definition two_tracks (a b : Z) : DB :=
  mkDB (<[1 := mkRatingRow a 0 0 0 0]> (<[2 := mkRatingRow b 0 0 0 0]> ∅)) [] 0.

(** Rounding as the design document words it: to the nearest integer, a
    tie going to the even one. *)
Definition RoundHalfEven (x : R) : Z :=
  let f := Zfloor x in
  if Rlt_dec (x - IZR f) (/ 2) then f
  else if Rlt_dec (/ 2) (x - IZR f) then f + 1
  else if Z.even f then f else f + 1.

(** The two ratings [ProcessDuel] hands to [UpdateRating] when it has read
    [rl] and [rr] and set the scores [sl] and [sr]. *)
Definition written (w : World) (result : string) (rl rr : Rating)
    (sl sr : R) : Rating * Rating :=
  count_result result
    (with_elo rl
       (CalculateNewElo (Elo rl) sl (CalculateExpectedScore (Elo rl) (Elo rr))
                        (GetKFactor (GetTotalBattles rl)))
       (clock w))
    (with_elo rr
       (CalculateNewElo (Elo rr) sr (CalculateExpectedScore (Elo rr) (Elo rl))
                        (GetKFactor (GetTotalBattles rr)))
       (clock w + 1)).

(** What a win adds to the rating of [x] when it meets [y], and what a
    loss takes from it, before the rounding: the factor K of [x] times one
    minus its expected score, and times its expected score. *)
Definition gain (x y : Rating) : R :=
  (IZR (GetKFactor (GetTotalBattles x))
   * (1 - CalculateExpectedScore (Elo x) (Elo y)))%R.
Definition loss (x y : Rating) : R :=
  (IZR (GetKFactor (GetTotalBattles x))
   * CalculateExpectedScore (Elo x) (Elo y))%R.

(** The rating [new] is the rating [old] raised by [g] and rounded: it is
    not below [old] and within one half of [old + g]; it is above [old]
    when [g] exceeds one half and equal to it when [g] is below one half;
    at one half exactly it is [old + 1] for an [old] that is not negative
    and [old] otherwise. *)
Definition raised (old new : Z) (g : R) : Prop :=
  old <= new
  /\ (- / 2 <= IZR new - (IZR old + g) <= / 2)%R
  /\ ((/ 2 < g)%R -> old < new)
  /\ ((g < / 2)%R -> new = old)
  /\ (g = (/ 2)%R -> new = if 0 <=? old then old + 1 else old).

(** The rating [new] is the rating [old] lowered by [g] and rounded: the
    same with the sides exchanged; at one half exactly it is [old] for an
    [old] of one or more and [old - 1] otherwise. *)
Definition lowered (old new : Z) (g : R) : Prop :=
  new <= old
  /\ (- / 2 <= IZR new - (IZR old - g) <= / 2)%R
  /\ ((/ 2 < g)%R -> new < old)
  /\ ((g < / 2)%R -> new = old)
  /\ (g = (/ 2)%R -> new = if 1 <=? old then old else old - 1).

(** The rating of a track after a call. *)
Definition elo_after {A : Type} (out : Result A * World) (trackID : Z)
    : option Z :=
  Elo <$> stored (db (snd out)) trackID.

(** The distance between the ratings of two tracks, as an integer. *)
Definition gap (t c : TrackWithRating) : Z :=
  Z.abs (Elo (rating c) - Elo (rating t)).

(** Ratings whose differences neither overflow nor reach [MaxInt]. *)
Definition elo_bounded (t : TrackWithRating) : Prop :=
  - 2 ^ 62 < Elo (rating t) < 2 ^ 62.

(** What a loop of [findBestOpponent] holds in its two variables once it
    has gone over the candidates [seen]. *)
Definition best_so_far (ranged : bool) (t : TrackWithRating)
    (seen : list TrackWithRating) (acc : option TrackWithRating * Z) : Prop :=
  match fst acc with
  | None =>
      snd acc = GoInt.MaxInt
      /\ forall c, In c seen -> ID (track c) <> ID (track t) ->
                   if ranged then EloRange < gap t c else False
  | Some b =>
      In b seen /\ ID (track b) <> ID (track t) /\ snd acc = gap t b
      /\ (if ranged then gap t b <= EloRange else True)
      /\ forall c, In c seen -> ID (track c) <> ID (track t) ->
                   gap t b <= gap t c
  end.

(** Both tracks of a pair, where not nil, are among [tracks]. *)
Definition drawn_from (tracks : list TrackWithRating) (p : Pair) : Prop :=
  (forall x, fst p = Some x -> In x tracks)
  /\ (forall x, snd p = Some x -> In x tracks).

(** The opponent of a track in a duel, as [GetRecentOpponents] reads it. *)
Definition opponent_of (trackID : Z) (d : Duel) : option Z :=
  if LeftTrackID d =? trackID then Some (RightTrackID d)
  else if RightTrackID d =? trackID then Some (LeftTrackID d)
  else None.

(** The three counters of a rating. *)
Definition counters (x : Rating) : Z * Z * Z := (Wins x, Losses x, Draws x).

(** A track with the given identifier, rating and number of wins. *)
Definition a_track (id e won : Z) : TrackWithRating :=
  mkTrackWithRating (mkTrack id EmptyString EmptyString EmptyString)
                    (mkRating id e won 0 0 0).

(** ** Go integers *)

Lemma wrap64_id (x : Z) : GoInt.in_int x -> GoInt.wrap64 x = x.
Proof.
  unfold GoInt.in_int, GoInt.MinInt, GoInt.MaxInt, GoInt.wrap64. intros H.
  rewrite Z.mod_small by lia. lia.
Qed.

Lemma wrap64_range (x : Z) : GoInt.in_int (GoInt.wrap64 x).
Proof.
  unfold GoInt.in_int, GoInt.MinInt, GoInt.MaxInt, GoInt.wrap64.
  pose proof (Z.mod_pos_bound (x + 2 ^ 63) (2 ^ 64) ltac:(lia)). lia.
Qed.

(** ** Rounding *)

Section Rounding.
Local Open Scope R_scope.

Lemma Round_nonneg_bounds (x : R) :
  0 <= x -> IZR (GoFloat.Round x) - / 2 <= x < IZR (GoFloat.Round x) + / 2.
Proof.
  intros Hx. unfold GoFloat.Round. destruct (Rle_dec 0 x); [|lra].
  pose proof (Zfloor_bound (x + / 2)). lra.
Qed.

Lemma Round_neg_bounds (x : R) :
  x < 0 -> IZR (GoFloat.Round x) - / 2 < x <= IZR (GoFloat.Round x) + / 2.
Proof.
  intros Hx. unfold GoFloat.Round. destruct (Rle_dec 0 x); [lra|].
  pose proof (Zfloor_bound (- x + / 2)). rewrite opp_IZR. lra.
Qed.

Lemma Round_IZR (z : Z) : GoFloat.Round (IZR z) = z.
Proof.
  unfold GoFloat.Round. destruct (Rle_dec 0 (IZR z)).
  - apply Zfloor_eq. lra.
  - assert (Zfloor (- IZR z + / 2) = (- z)%Z); [|lia].
    apply Zfloor_eq. rewrite opp_IZR. lra.
Qed.

Lemma Round_near (x : R) (z : Z) :
  IZR z - / 2 < x < IZR z + / 2 -> GoFloat.Round x = z.
Proof.
  intros H. unfold GoFloat.Round. destruct (Rle_dec 0 x).
  - apply Zfloor_eq. lra.
  - assert (Zfloor (- x + / 2) = (- z)%Z); [|lia].
    apply Zfloor_eq. rewrite opp_IZR. lra.
Qed.

Lemma Round_mono (x y : R) : x <= y -> (GoFloat.Round x <= GoFloat.Round y)%Z.
Proof.
  intros Hxy.
  destruct (Rle_dec 0 x) as [Hx|Hx], (Rle_dec 0 y) as [Hy|Hy].
  - pose proof (Round_nonneg_bounds x Hx). pose proof (Round_nonneg_bounds y Hy).
    apply Z.lt_succ_r, lt_IZR. rewrite succ_IZR. lra.
  - lra.
  - pose proof (Round_neg_bounds x ltac:(lra)).
    pose proof (Round_nonneg_bounds y Hy).
    apply Z.lt_succ_r, lt_IZR. rewrite succ_IZR. lra.
  - pose proof (Round_neg_bounds x ltac:(lra)).
    pose proof (Round_neg_bounds y ltac:(lra)).
    apply Z.lt_succ_r, lt_IZR. rewrite succ_IZR. lra.
Qed.

End Rounding.

(** ** The store and its monad *)

Lemma writes_succeed_S (n : nat) (fs : list bool) :
  writes_succeed (S n) fs ->
  head fs <> Some true /\ writes_succeed n (tail fs).
Proof.
  unfold writes_succeed. destruct fs as [|[] fs]; simpl; try done.
  by rewrite take_nil.
Qed.

Lemma Exec_succeeds (upd : DB -> DB) (w : World) :
  head (faults w) <> Some true ->
  Exec upd w = (Ok tt, mkWorld (upd (db w)) (tail (faults w)) (clock w)).
Proof. unfold Exec. destruct (faults w) as [|[] fs]; simpl; done. Qed.

Lemma Exec_fails (upd : DB -> DB) (w : World) :
  head (faults w) = Some true ->
  Exec upd w = (Err ErrExec, mkWorld (db w) (tail (faults w)) (clock w)).
Proof. unfold Exec. destruct (faults w) as [|[] fs]; simpl; done. Qed.

Lemma GetRating_found (w : World) (k : Z) (r : Rating) :
  stored (db w) k = Some r -> GetRating k w = (Ok r, w).
Proof. unfold GetRating. by intros ->. Qed.

Lemma GetRating_missing (w : World) (k : Z) :
  stored (db w) k = None -> GetRating k w = (Err ErrNoRows, w).
Proof. unfold GetRating. by intros ->. Qed.

Lemma bind_Ok {A B : Type} (m : M A) (f : A -> M B) (w w' : World) (a : A) :
  m w = (Ok a, w') -> (m ≫= f) w = f a w'.
Proof. unfold mbind, M_bind. by intros ->. Qed.

Lemma bind_Err {A B : Type} (m : M A) (f : A -> M B) (w w' : World) (e : Error) :
  m w = (Err e, w') -> (m ≫= f) w = (Err e, w').
Proof. unfold mbind, M_bind. by intros ->. Qed.

Lemma stored_TrackID (d : DB) (k : Z) (r : Rating) :
  stored d k = Some r -> TrackID r = k.
Proof.
  unfold stored. destruct (ratings d !! k); simpl; [|done].
  by intros [= <-].
Qed.

Lemma stored_update_eq (d : DB) (r : Rating) :
  is_Some (stored d (TrackID r)) ->
  stored (update_row r d) (TrackID r) = Some r.
Proof.
  unfold stored, update_row. intros [r0 H].
  destruct (ratings d !! TrackID r) as [row|]; [|done]. simpl.
  rewrite lookup_insert_eq. simpl. by destruct r.
Qed.

Lemma stored_update_ne (d : DB) (r : Rating) (k : Z) :
  k <> TrackID r -> stored (update_row r d) k = stored d k.
Proof.
  unfold stored, update_row. intros Hk.
  destruct (ratings d !! TrackID r) as [row|]; [|done]. simpl.
  by rewrite lookup_insert_ne.
Qed.

Lemma duels_update_row (d : DB) (r : Rating) :
  duels (update_row r d) = duels d.
Proof. unfold update_row. by destruct (ratings d !! TrackID r). Qed.

Lemma duel_seq_update_row (d : DB) (r : Rating) :
  duel_seq (update_row r d) = duel_seq d.
Proof. unfold update_row. by destruct (ratings d !! TrackID r). Qed.

(** ** [ProcessDuel]: the paths that do not touch the ratings *)

Lemma is_outcome_false (result : string) :
  is_outcome result = false ->
  String.eqb result WinnerLeft = false /\ String.eqb result WinnerRight = false
  /\ String.eqb result WinnerDraw = false /\ String.eqb result WinnerSkip = false.
Proof.
  unfold is_outcome. intros H.
  repeat (apply orb_false_elim in H as [H ?]). auto.
Qed.

Lemma ProcessDuel_read {B : Type} (w : World) (l r : Z) (result : string)
    (rl rr : Rating) (k : Rating -> Rating -> M B) :
  stored (db w) l = Some rl -> stored (db w) r = Some rr ->
  (leftRating ← GetRating l; rightRating ← GetRating r; k leftRating rightRating) w
  = k rl rr w.
Proof.
  intros Hl Hr.
  rewrite (bind_Ok _ _ _ _ _ (GetRating_found w l rl Hl)).
  by rewrite (bind_Ok _ _ _ _ _ (GetRating_found w r rr Hr)).
Qed.

Lemma recordDuel_succeeds (w : World) (l r : Z) (winner : option Z) :
  head (faults w) <> Some true ->
  recordDuelWithoutEloChange l r winner w
  = (Ok tt,
     mkWorld (mkDB (ratings (db w))
                   (duels (db w)
                    ++ [mkDuel (duel_seq (db w) + 1) l r winner (clock w)])
                   (duel_seq (db w) + 1))
             (tail (faults w)) (clock w + 1)).
Proof.
  intros H. unfold recordDuelWithoutEloChange.
  erewrite bind_Ok by reflexivity.
  unfold CreateDuel. by rewrite Exec_succeeds.
Qed.

Lemma recordDuel_ratings (w : World) (l r : Z) (winner : option Z) :
  ratings (db (snd (recordDuelWithoutEloChange l r winner w))) = ratings (db w).
Proof.
  unfold recordDuelWithoutEloChange.
  erewrite bind_Ok by reflexivity.
  unfold CreateDuel, Exec. simpl. by destruct (faults w) as [|[] fs].
Qed.

(** C9.  When the left or the right track has no row in table [ratings],
    [ProcessDuel] fails with the error of the lookup, [sql.ErrNoRows],
    whatever the result passed, and leaves the world as it was: no duel is
    recorded and no rating is written. *)
Theorem ProcessDuel_rating_not_found (w : World) (l r : Z) (result : string) :
  stored (db w) l = None \/ stored (db w) r = None ->
  ProcessDuel l r result w = (Err ErrNoRows, w).
Proof.
  intros H. unfold ProcessDuel.
  destruct (stored (db w) l) as [rl|] eqn:Hl.
  - destruct H as [H|H]; [done|].
    rewrite (bind_Ok _ _ _ _ _ (GetRating_found w l rl Hl)).
    by rewrite (bind_Err _ _ _ _ _ (GetRating_missing w r H)).
  - by rewrite (bind_Err _ _ _ _ _ (GetRating_missing w l Hl)).
Qed.

Lemma ProcessDuel_rating_not_found_witness :
  ProcessDuel 1 3 WinnerLeft (mkWorld (two_tracks 1200 1200) [] 0)
  = (Err ErrNoRows, mkWorld (two_tracks 1200 1200) [] 0).
Proof. apply ProcessDuel_rating_not_found. right. reflexivity. Defined.

(** C8.  Processing [skip] for two tracks that have their ratings leaves
    table [ratings] as it was, and, when the insertion does not fail,
    succeeds and adds one row to table [duels], at its end, between these
    two tracks and without a winner. *)
Theorem ProcessDuel_skip (w : World) (l r : Z) (rl rr : Rating) :
  stored (db w) l = Some rl -> stored (db w) r = Some rr ->
  let out := ProcessDuel l r WinnerSkip w in
  ratings (db (snd out)) = ratings (db w)
  /\ (head (faults w) <> Some true ->
      fst out = Ok tt
      /\ duels (db (snd out))
         = duels (db w) ++ [mkDuel (duel_seq (db w) + 1) l r None (clock w)]).
Proof.
  intros Hl Hr. unfold ProcessDuel.
  rewrite (ProcessDuel_read w l r WinnerSkip rl rr _ Hl Hr). simpl.
  split; [apply recordDuel_ratings|].
  intros Hf. by rewrite recordDuel_succeeds.
Qed.

Lemma ProcessDuel_skip_witness :
  let w := mkWorld (two_tracks 1200 1200) [] 0 in
  let out := ProcessDuel 1 2 WinnerSkip w in
  ratings (db (snd out)) = ratings (db w)
  /\ (head (faults w) <> Some true ->
      fst out = Ok tt
      /\ duels (db (snd out))
         = duels (db w) ++ [mkDuel (duel_seq (db w) + 1) 1 2 None (clock w)]).
Proof.
  apply (ProcessDuel_skip (mkWorld (two_tracks 1200 1200) [] 0) 1 2
           (mkRating 1 1200 0 0 0 0) (mkRating 2 1200 0 0 0 0));
    reflexivity.
Defined.

(** C1, as the code has it.  A result that is none of [left], [right],
    [draw] and [skip], passed for two tracks that have their ratings, is
    ignored: [ProcessDuel] returns no error and leaves the world as it
    was. *)
Theorem ProcessDuel_invalid_result_ignored (w : World) (l r : Z)
    (result : string) (rl rr : Rating) :
  stored (db w) l = Some rl -> stored (db w) r = Some rr ->
  is_outcome result = false ->
  ProcessDuel l r result w = (Ok tt, w).
Proof.
  intros Hl Hr (H1 & H2 & H3 & H4)%is_outcome_false.
  unfold ProcessDuel.
  rewrite (ProcessDuel_read w l r result rl rr _ Hl Hr).
  by rewrite H1, H2, H3, H4.
Qed.

Lemma ProcessDuel_invalid_result_ignored_witness :
  ProcessDuel 1 2 "banana" (mkWorld (two_tracks 1200 1200) [] 0)
  = (Ok tt, mkWorld (two_tracks 1200 1200) [] 0).
Proof.
  apply (ProcessDuel_invalid_result_ignored _ 1 2 "banana"
           (mkRating 1 1200 0 0 0 0) (mkRating 2 1200 0 0 0 0));
    reflexivity.
Defined.

(** C1, as stated, fails: for the result [banana] and two tracks that
    have their ratings, [ProcessDuel] returns no error. *)
Lemma ProcessDuel_invalid_result_no_error :
  is_outcome "banana" = false
  /\ stored (two_tracks 1200 1200) 1 = Some (mkRating 1 1200 0 0 0 0)
  /\ stored (two_tracks 1200 1200) 2 = Some (mkRating 2 1200 0 0 0 0)
  /\ fst (ProcessDuel 1 2 "banana" (mkWorld (two_tracks 1200 1200) [] 0))
     = Ok tt.
Proof.
repeat split; reflexivity. Qed.

(** ** The Elo arithmetic *)

Section EloArithmetic.
Local Open Scope R_scope.

Lemma Pow10_pos (y : R) : 0 < GoFloat.Pow10 y.
Proof. unfold GoFloat.Pow10, Rpower. apply exp_pos. Qed.

Lemma Pow10_0 : GoFloat.Pow10 0 = 1.
Proof. unfold GoFloat.Pow10. apply Rpower_O. lra. Qed.

Lemma Pow10_2 : GoFloat.Pow10 2 = 100.
Proof.
  unfold GoFloat.Pow10. change 2 with (INR 2).
  rewrite Rpower_pow by lra. simpl. lra.
Qed.

Lemma Pow10_opp_2 : GoFloat.Pow10 (- 2) = / 100.
Proof.
  unfold GoFloat.Pow10. replace (- 2) with (Ropp 2) by lra.
  rewrite Rpower_Ropp.
  fold (GoFloat.Pow10 2). by rewrite Pow10_2.
Qed.

Lemma ExpectedScore_bounds (eloA eloB : Z) :
  0 < CalculateExpectedScore eloA eloB < 1.
Proof.
  unfold CalculateExpectedScore.
  set (p := GoFloat.Pow10 _). assert (0 < p) by apply Pow10_pos.
  assert (Hi : 0 < / (1 + p)) by (apply Rinv_0_lt_compat; lra).
  assert (Hr : (1 + p) * / (1 + p) = 1) by (apply Rinv_r; lra).
  unfold Rdiv. nra.
Qed.

Lemma GetKFactor_pos (n : Z) : 0 < IZR (GetKFactor n).
Proof.
  unfold GetKFactor, MaxK, MidK, MinK.
  destruct (n <? NewPlayerThreshold)%Z; [lra|].
  destruct (n <? ExperiencedPlayerThreshold)%Z; lra.
Qed.

Lemma CalculateNewElo_winner (oldElo k : Z) (e : R) :
  0 < IZR k -> e < 1 -> (oldElo <= CalculateNewElo oldElo 1 e k)%Z.
Proof.
  intros Hk He. unfold CalculateNewElo.
  rewrite <- (Round_IZR oldElo) at 1. apply Round_mono. nra.
Qed.

Lemma CalculateNewElo_loser (oldElo k : Z) (e : R) :
  0 < IZR k -> 0 < e -> (CalculateNewElo oldElo 0 e k <= oldElo)%Z.
Proof.
  intros Hk He. unfold CalculateNewElo.
  rewrite <- (Round_IZR oldElo) at 2. apply Round_mono. nra.
Qed.

End EloArithmetic.

(** C4, as the code has it.  [CalculateNewElo] gives an integer nearest
    to [oldElo + k * (actualScore - expectedScore)], and on a tie, where
    two integers are at distance one half, the one further from zero. *)
Theorem CalculateNewElo_nearest_half_away (oldElo k : Z) (a e : R) :
  let x := (IZR oldElo + IZR k * (a - e))%R in
  let n := CalculateNewElo oldElo a e k in
  (Rabs (IZR n - x) <= / 2)%R
  /\ (Rabs (IZR n - x) = / 2 -> Rabs x < Rabs (IZR n))%R.
Proof.
  intros x n. unfold n, CalculateNewElo. fold x.
  destruct (Rle_dec 0 x) as [Hx|Hx].
  - pose proof (Round_nonneg_bounds x Hx) as Hb.
    split; [apply Rabs_le; lra|].
    intros Ht. unfold Rabs in *.
    repeat destruct Rcase_abs; lra.
  - pose proof (Round_neg_bounds x ltac:(lra)) as Hb.
    split; [apply Rabs_le; lra|].
    intros Ht. unfold Rabs in *.
    repeat destruct Rcase_abs; lra.
Qed.

(** C4, as stated, fails: for the old rating 1200, the factor 32, the
    score 1 and the expected score 31/64 the sum is 1216.5, which
    [CalculateNewElo] takes to 1217 and rounding to even takes to 1216. *)
Lemma CalculateNewElo_not_half_even :
  CalculateNewElo 1200 1 (31 / 64) 32 = 1217
  /\ RoundHalfEven (IZR 1200 + IZR 32 * (1 - 31 / 64)) = 1216.
Proof.
  split.
  - unfold CalculateNewElo, GoFloat.Round.
    destruct (Rle_dec _ _) as [_|H]; [|exfalso; apply H; lra].
    apply Zfloor_eq. lra.
  - unfold RoundHalfEven.
    assert (Hf : Zfloor (IZR 1200 + IZR 32 * (1 - 31 / 64)) = 1216).
    { apply Zfloor_eq. lra. }
    rewrite Hf.
    destruct (Rlt_dec _ _) as [H|_]; [exfalso; lra|].
    destruct (Rlt_dec _ _) as [H|_]; [exfalso; lra|].
    reflexivity.
Qed.

(** C10.  [GetWinRate] is 0 when the track has no battle, and otherwise
    the wins over the total of battles, times 100, the total it divides by
    being other than zero.  The total is the sum of the three counters as
    [int] computes it, which is their sum as long as that fits. *)
Theorem GetWinRate_total (r : Rating) :
  (GetTotalBattles r = 0 -> GetWinRate r = 0%R)
  /\ (GetTotalBattles r <> 0 ->
      IZR (GetTotalBattles r) <> 0%R
      /\ GetWinRate r = (IZR (Wins r) / IZR (GetTotalBattles r) * 100)%R)
  /\ (0 <= Wins r -> 0 <= Losses r -> 0 <= Draws r ->
      Wins r + Losses r + Draws r <= GoInt.MaxInt ->
      GetTotalBattles r = Wins r + Losses r + Draws r).
Proof.
  unfold GetWinRate. split; [|split].
  - intros H. by destruct (Z.eq_dec _ _).
  - intros H. split; [by apply not_0_IZR|]. by destruct (Z.eq_dec _ _).
  - intros Hw Hl Hd Hs. unfold GetTotalBattles, GoInt.add.
    rewrite (wrap64_id (Wins r + Losses r))
      by (unfold GoInt.in_int, GoInt.MinInt, GoInt.MaxInt in *; lia).
    apply wrap64_id. unfold GoInt.in_int, GoInt.MinInt, GoInt.MaxInt in *. lia.
Qed.

(** ** [ProcessDuel]: the path that writes the ratings *)

Lemma count_result_TrackID (result : string) (a b : Rating) :
  TrackID (fst (count_result result a b)) = TrackID a
  /\ TrackID (snd (count_result result a b)) = TrackID b.
Proof.
  unfold count_result.
  destruct (String.eqb result WinnerLeft); [done|].
  destruct (String.eqb result WinnerRight); [done|].
  by destruct (String.eqb result WinnerDraw).
Qed.

Lemma count_result_Elo (result : string) (a b : Rating) :
  Elo (fst (count_result result a b)) = Elo a
  /\ Elo (snd (count_result result a b)) = Elo b.
Proof.
  unfold count_result.
  destruct (String.eqb result WinnerLeft); [done|].
  destruct (String.eqb result WinnerRight); [done|].
  by destruct (String.eqb result WinnerDraw).
Qed.

Section ScoredPath.
Variables (w : World) (l r : Z) (result : string) (rl rr : Rating).
Variables (sl sr : R).
Hypothesis Hl : stored (db w) l = Some rl.
Hypothesis Hr : stored (db w) r = Some rr.

Abbreviation written := (written w result rl rr sl sr).

Lemma written_left_key : TrackID (fst written) = l.
Proof.
  unfold written. rewrite (proj1 (count_result_TrackID _ _ _)). simpl.
  by apply stored_TrackID in Hl.
Qed.

Lemma written_right_key : TrackID (snd written) = r.
Proof.
  unfold written. rewrite (proj2 (count_result_TrackID _ _ _)). simpl.
  by apply stored_TrackID in Hr.
Qed.

(** The world after the two readings of the clock, and the database
    after the first and after the second write. *)
Abbreviation after0 := (mkWorld (db w) (faults w) (clock w + 1 + 1)).
Abbreviation db1 := (update_row (fst written) (db w)).
Abbreviation db2 := (update_row (snd written) (update_row (fst written) (db w))).

Lemma applyScores_unfold :
  applyScores l r result rl rr sl sr w
  = (UpdateRating (fst written);;
     UpdateRating (snd written);;
     recordDuelWithoutEloChange l r (winner_of result l r)) after0.
Proof.
  unfold applyScores.
  erewrite bind_Ok by reflexivity.
  erewrite bind_Ok by reflexivity.
  simpl. fold written. by destruct written.
Qed.

Lemma applyScores_first_write_fails :
  head (faults w) = Some true ->
  applyScores l r result rl rr sl sr w
  = (Err ErrExec, mkWorld (db w) (tail (faults w)) (clock w + 1 + 1)).
Proof.
  intros Hf. rewrite applyScores_unfold.
  erewrite bind_Err; [done|]. unfold UpdateRating. by rewrite Exec_fails.
Qed.

Lemma applyScores_second_write_fails :
  head (faults w) <> Some true -> head (tail (faults w)) = Some true ->
  applyScores l r result rl rr sl sr w
  = (Err ErrExec,
     mkWorld (update_row (fst written) (db w)) (tail (tail (faults w)))
             (clock w + 1 + 1)).
Proof.
  intros Hf1 Hf2. rewrite applyScores_unfold.
  erewrite bind_Ok; [|unfold UpdateRating; by rewrite Exec_succeeds].
  erewrite bind_Err; [done|]. unfold UpdateRating. by rewrite Exec_fails.
Qed.

Lemma applyScores_succeeds :
  writes_succeed 3 (faults w) ->
  applyScores l r result rl rr sl sr w
  = (Ok tt,
     mkWorld (mkDB (ratings db2)
                   (duels (db w)
                    ++ [mkDuel (duel_seq (db w) + 1) l r
                               (winner_of result l r) (clock w + 1 + 1)])
                   (duel_seq (db w) + 1))
             (tail (tail (tail (faults w)))) (clock w + 1 + 1 + 1)).
Proof.
  intros (Hf1 & (Hf2 & (Hf3 & _)%writes_succeed_S)%writes_succeed_S)%writes_succeed_S.
  rewrite applyScores_unfold.
  erewrite bind_Ok; [|unfold UpdateRating; by rewrite Exec_succeeds].
  erewrite bind_Ok; [|unfold UpdateRating; by rewrite Exec_succeeds].
  rewrite recordDuel_succeeds by done. simpl.
  by rewrite !duels_update_row, !duel_seq_update_row.
Qed.

Lemma stored_after_writes :
  l <> r ->
  stored db2 l = Some (fst written)
  /\ stored db2 r = Some (snd written).
Proof.
  intros Hne. simpl. split.
  - rewrite stored_update_ne by (rewrite written_right_key; done).
    rewrite <- written_left_key at 1. apply stored_update_eq.
    rewrite written_left_key. by rewrite Hl.
  - rewrite <- written_right_key at 1. apply stored_update_eq.
    rewrite written_right_key.
    rewrite stored_update_ne by (rewrite written_left_key; done).
    by rewrite Hr.
Qed.

Lemma stored_after_first_write :
  l <> r ->
  stored db1 l = Some (fst written)
  /\ stored db1 r = Some rr.
Proof.
  intros Hne. simpl. split.
  - rewrite <- written_left_key at 1. apply stored_update_eq.
    rewrite written_left_key. by rewrite Hl.
  - rewrite stored_update_ne by (rewrite written_left_key; done). done.
Qed.

End ScoredPath.

Lemma applyScores_done (w : World) (l r : Z) (result : string)
    (rl rr : Rating) (sl sr : R) :
  stored (db w) l = Some rl -> stored (db w) r = Some rr -> l <> r ->
  writes_succeed 3 (faults w) ->
  let out := applyScores l r result rl rr sl sr w in
  fst out = Ok tt
  /\ stored (db (snd out)) l = Some (fst (written w result rl rr sl sr))
  /\ stored (db (snd out)) r = Some (snd (written w result rl rr sl sr))
  /\ duels (db (snd out))
     = duels (db w)
       ++ [mkDuel (duel_seq (db w) + 1) l r (winner_of result l r)
                  (clock w + 1 + 1)].
Proof.
  intros Hl Hr Hne Hf. cbv zeta.
  rewrite (applyScores_succeeds w l r result rl rr sl sr Hf). simpl.
  destruct (stored_after_writes w l r result rl rr sl sr Hl Hr Hne) as [H1 H2].
  done.
Qed.

Lemma written_Elo (w : World) (result : string) (rl rr : Rating) (sl sr : R) :
  Elo (fst (written w result rl rr sl sr))
  = CalculateNewElo (Elo rl) sl (CalculateExpectedScore (Elo rl) (Elo rr))
                    (GetKFactor (GetTotalBattles rl))
  /\ Elo (snd (written w result rl rr sl sr))
     = CalculateNewElo (Elo rr) sr (CalculateExpectedScore (Elo rr) (Elo rl))
                       (GetKFactor (GetTotalBattles rr)).
Proof.
  unfold written.
  by rewrite (proj1 (count_result_Elo _ _ _)), (proj2 (count_result_Elo _ _ _)).
Qed.

Lemma ProcessDuel_left (w : World) (l r : Z) (rl rr : Rating) :
  stored (db w) l = Some rl -> stored (db w) r = Some rr ->
  ProcessDuel l r WinnerLeft w = applyScores l r WinnerLeft rl rr 1 0 w.
Proof.
  intros Hl Hr. unfold ProcessDuel.
  by rewrite (ProcessDuel_read w l r WinnerLeft rl rr _ Hl Hr).
Qed.

Lemma ProcessDuel_right (w : World) (l r : Z) (rl rr : Rating) :
  stored (db w) l = Some rl -> stored (db w) r = Some rr ->
  ProcessDuel l r WinnerRight w = applyScores l r WinnerRight rl rr 0 1 w.
Proof.
  intros Hl Hr. unfold ProcessDuel.
  by rewrite (ProcessDuel_read w l r WinnerRight rl rr _ Hl Hr).
Qed.

Lemma ProcessDuel_draw (w : World) (l r : Z) (rl rr : Rating) :
  stored (db w) l = Some rl -> stored (db w) r = Some rr ->
  ProcessDuel l r WinnerDraw w
  = applyScores l r WinnerDraw rl rr (1 / 2) (1 / 2) w.
Proof.
  intros Hl Hr. unfold ProcessDuel.
  by rewrite (ProcessDuel_read w l r WinnerDraw rl rr _ Hl Hr).
Qed.

Lemma Round_half_up (z : Z) :
  GoFloat.Round (IZR z + / 2) = if 0 <=? z then z + 1 else z.
Proof.
  unfold GoFloat.Round. destruct (Z.leb_spec 0 z) as [Hz|Hz].
  - apply IZR_le in Hz.
    destruct (Rle_dec 0 (IZR z + / 2)) as [_|Hn]; [|lra].
    apply Zfloor_eq. rewrite plus_IZR. lra.
  - assert (Hz1 : z <= - 1) by lia. apply IZR_le in Hz1.
    destruct (Rle_dec 0 (IZR z + / 2)) as [Hp|_]; [lra|].
    assert (Zfloor (- (IZR z + / 2) + / 2) = - z); [|lia].
    apply Zfloor_eq. rewrite opp_IZR. lra.
Qed.

Lemma Round_half_down (z : Z) :
  GoFloat.Round (IZR z - / 2) = if 1 <=? z then z else z - 1.
Proof.
  unfold GoFloat.Round. destruct (Z.leb_spec 1 z) as [Hz|Hz].
  - apply IZR_le in Hz.
    destruct (Rle_dec 0 (IZR z - / 2)) as [_|Hn]; [|lra].
    apply Zfloor_eq. lra.
  - assert (Hz0 : z <= 0) by lia. apply IZR_le in Hz0.
    destruct (Rle_dec 0 (IZR z - / 2)) as [Hp|_]; [lra|].
    assert (Zfloor (- (IZR z - / 2) + / 2) = - z + 1); [|lia].
    apply Zfloor_eq. rewrite plus_IZR, opp_IZR. lra.
Qed.

Lemma Round_within_half (x : R) :
  (- / 2 <= IZR (GoFloat.Round x) - x <= / 2)%R.
Proof.
  destruct (Rle_dec 0 x) as [Hx|Hx].
  - pose proof (Round_nonneg_bounds x Hx). lra.
  - pose proof (Round_neg_bounds x ltac:(lra)). lra.
Qed.

Lemma CalculateNewElo_raised (oldElo k : Z) (e : R) :
  (0 < IZR k)%R -> (e < 1)%R ->
  raised oldElo (CalculateNewElo oldElo 1 e k) (IZR k * (1 - e)).
Proof.
  intros Hk He. split; [by apply CalculateNewElo_winner|].
  unfold CalculateNewElo.
  set (g := (IZR k * (1 - e))%R). assert (Hg : (0 < g)%R) by (unfold g; nra).
  pose proof (Round_within_half (IZR oldElo + g)) as Hb.
  split; [done|]. split; [|split].
  - intros Hbig. apply lt_IZR. lra.
  - intros Hsmall. apply Round_near. lra.
  - intros ->. apply Round_half_up.
Qed.

Lemma CalculateNewElo_lowered (oldElo k : Z) (e : R) :
  (0 < IZR k)%R -> (0 < e)%R ->
  lowered oldElo (CalculateNewElo oldElo 0 e k) (IZR k * e).
Proof.
  intros Hk He. split; [by apply CalculateNewElo_loser|].
  unfold CalculateNewElo.
  replace (IZR oldElo + IZR k * (0 - e))%R with (IZR oldElo - IZR k * e)%R
    by lra.
  set (g := (IZR k * e)%R). assert (Hg : (0 < g)%R) by (unfold g; nra).
  pose proof (Round_within_half (IZR oldElo - g)) as Hb.
  split; [done|]. split; [|split].
  - intros Hbig. apply lt_IZR. lra.
  - intros Hsmall. apply Round_near. lra.
  - intros ->. apply Round_half_down.
Qed.

(** C5, as the code has it.  When the tracks [l] and [r] are two
    different tracks that have their ratings and the writes succeed, a win
    of one of them is processed without error; the winner's stored rating
    is then its old rating raised by its gain and rounded, and the
    loser's its old rating lowered by its loss and rounded.  So the
    winner's rating is at least what it was, above it when the gain
    exceeds one half and equal to it when the gain is below one half, and
    the loser's rating is at most what it was, below it when the loss
    exceeds one half and equal to it when the loss is below one half. *)
Theorem ProcessDuel_winner_up_loser_down (w : World) (l r : Z)
    (rl rr : Rating) :
  stored (db w) l = Some rl -> stored (db w) r = Some rr -> l <> r ->
  writes_succeed 3 (faults w) ->
  (let out := ProcessDuel l r WinnerLeft w in
   fst out = Ok tt
   /\ exists a b, elo_after out l = Some a /\ elo_after out r = Some b
                  /\ raised (Elo rl) a (gain rl rr)
                  /\ lowered (Elo rr) b (loss rr rl))
  /\ (let out := ProcessDuel l r WinnerRight w in
      fst out = Ok tt
      /\ exists a b, elo_after out l = Some a /\ elo_after out r = Some b
                     /\ lowered (Elo rl) a (loss rl rr)
                     /\ raised (Elo rr) b (gain rr rl)).
Proof.
  intros Hl Hr Hne Hf. split; cbv zeta; unfold elo_after, gain, loss.
  - rewrite (ProcessDuel_left w l r rl rr Hl Hr).
    destruct (applyScores_done w l r WinnerLeft rl rr 1 0 Hl Hr Hne Hf)
      as (-> & -> & -> & _).
    split; [done|]. do 2 eexists. do 2 (split; [reflexivity|]).
    destruct (written_Elo w WinnerLeft rl rr 1 0) as [-> ->].
    split.
    + apply CalculateNewElo_raised;
        [apply GetKFactor_pos | apply ExpectedScore_bounds].
    + apply CalculateNewElo_lowered;
        [apply GetKFactor_pos | apply ExpectedScore_bounds].
  - rewrite (ProcessDuel_right w l r rl rr Hl Hr).
    destruct (applyScores_done w l r WinnerRight rl rr 0 1 Hl Hr Hne Hf)
      as (-> & -> & -> & _).
    split; [done|]. do 2 eexists. do 2 (split; [reflexivity|]).
    destruct (written_Elo w WinnerRight rl rr 0 1) as [-> ->].
    split.
    + apply CalculateNewElo_lowered;
        [apply GetKFactor_pos | apply ExpectedScore_bounds].
    + apply CalculateNewElo_raised;
        [apply GetKFactor_pos | apply ExpectedScore_bounds].
Qed.

Lemma ProcessDuel_winner_up_loser_down_witness :
  let w := mkWorld (two_tracks 1200 1200) [] 0 in
  let fresh1 := mkRating 1 1200 0 0 0 0 in
  let fresh2 := mkRating 2 1200 0 0 0 0 in
  (let out := ProcessDuel 1 2 WinnerLeft w in
   fst out = Ok tt
   /\ exists a b, elo_after out 1 = Some a /\ elo_after out 2 = Some b
                  /\ raised 1200 a (gain fresh1 fresh2)
                  /\ lowered 1200 b (loss fresh2 fresh1))
  /\ (let out := ProcessDuel 1 2 WinnerRight w in
      fst out = Ok tt
      /\ exists a b, elo_after out 1 = Some a /\ elo_after out 2 = Some b
                     /\ lowered 1200 a (loss fresh1 fresh2)
                     /\ raised 1200 b (gain fresh2 fresh1)).
Proof.
  apply (ProcessDuel_winner_up_loser_down
           (mkWorld (two_tracks 1200 1200) [] 0) 1 2
           (mkRating 1 1200 0 0 0 0) (mkRating 2 1200 0 0 0 0));
    [reflexivity | reflexivity | lia | reflexivity].
Defined.

Section EloExamples.
Local Open Scope R_scope.

(** Two tracks rated alike expect one half each. *)
Lemma ExpectedScore_same (e : Z) : CalculateExpectedScore e e = 1 / 2.
Proof.
  unfold CalculateExpectedScore, GoInt.sub. rewrite Z.sub_diag.
  change (GoInt.wrap64 0) with 0%Z.
  replace (0 / 400) with 0 by lra. rewrite Pow10_0. lra.
Qed.

Lemma ExpectedScore_2000_1200 : CalculateExpectedScore 2000 1200 = 100 / 101.
Proof.
  unfold CalculateExpectedScore.
  change (GoInt.sub 1200 2000) with (- 800)%Z.
  replace (IZR (- 800) / 400) with (- 2) by lra.
  rewrite Pow10_opp_2. lra.
Qed.

Lemma ExpectedScore_1200_2000 : CalculateExpectedScore 1200 2000 = 1 / 101.
Proof.
  unfold CalculateExpectedScore.
  change (GoInt.sub 2000 1200) with 800%Z.
  replace (800 / 400) with 2 by lra.
  rewrite Pow10_2. lra.
Qed.

Lemma NewElo_fresh_win :
  CalculateNewElo 1200 1 (CalculateExpectedScore 1200 1200) 32 = 1216%Z
  /\ CalculateNewElo 1200 0 (CalculateExpectedScore 1200 1200) 32 = 1184%Z.
Proof.
  rewrite ExpectedScore_same. unfold CalculateNewElo.
  split; apply Round_near; lra.
Qed.

Lemma NewElo_2000_beats_1200 :
  CalculateNewElo 2000 1 (CalculateExpectedScore 2000 1200) 32 = 2000%Z
  /\ CalculateNewElo 1200 0 (CalculateExpectedScore 1200 2000) 32 = 1200%Z.
Proof.
  rewrite ExpectedScore_2000_1200, ExpectedScore_1200_2000.
  unfold CalculateNewElo. split; apply Round_near; lra.
Qed.

End EloExamples.

(** C5, as stated, fails: when track 1, rated 2000, beats track 2, rated
    1200, both never played, the call succeeds and both stored ratings are
    what they were; neither inequality is strict. *)
Lemma ProcessDuel_win_keeps_both_ratings :
  let w := mkWorld (two_tracks 2000 1200) [] 0 in
  let out := ProcessDuel 1 2 WinnerLeft w in
  elo_after (Ok tt, w) 1 = Some 2000 /\ elo_after (Ok tt, w) 2 = Some 1200
  /\ fst out = Ok tt
  /\ elo_after out 1 = Some 2000 /\ elo_after out 2 = Some 1200.
Proof.
  cbv zeta. do 2 (split; [reflexivity|]).
  set (w := mkWorld (two_tracks 2000 1200) [] 0).
  set (rl := mkRating 1 2000 0 0 0 0). set (rr := mkRating 2 1200 0 0 0 0).
  assert (Hl : stored (db w) 1 = Some rl) by reflexivity.
  assert (Hr : stored (db w) 2 = Some rr) by reflexivity.
  rewrite (ProcessDuel_left w 1 2 rl rr Hl Hr). unfold elo_after.
  destruct (applyScores_done w 1 2 WinnerLeft rl rr 1 0 Hl Hr)
    as (-> & -> & -> & _); [lia | reflexivity |].
  cbn [fmap option_fmap option_map].
  destruct (written_Elo w WinnerLeft rl rr 1 0) as [-> ->].
  change (GetKFactor (GetTotalBattles rl)) with 32.
  change (GetKFactor (GetTotalBattles rr)) with 32.
  change (Elo rl) with 2000. change (Elo rr) with 1200.
  destruct NewElo_2000_beats_1200 as [-> ->]. done.
Qed.

(** ** [SimulateDuel] against [ProcessDuel] *)

Lemma is_outcome_true (result : string) :
  is_outcome result = true ->
  result = WinnerLeft \/ result = WinnerRight \/ result = WinnerDraw
  \/ result = WinnerSkip.
Proof.
  unfold is_outcome. rewrite !orb_true_iff, !String.eqb_eq. tauto.
Qed.

Lemma sub_diag (x : Z) : GoInt.sub x x = 0.
Proof. unfold GoInt.sub. by rewrite Z.sub_diag. Qed.

Lemma SimulateDuel_scored (w : World) (l r : Z) (result : string)
    (rl rr : Rating) (sl sr : R) :
  stored (db w) l = Some rl -> stored (db w) r = Some rr -> l <> r ->
  writes_succeed 3 (faults w) ->
  let out := applyScores l r result rl rr sl sr w in
  fst out = Ok tt
  /\ exists cl cr,
       projectScores l r result rl rr sl sr = [cl; cr]
       /\ OldElo cl = Elo rl /\ OldElo cr = Elo rr
       /\ elo_after out l = Some (NewElo cl)
       /\ elo_after out r = Some (NewElo cr)
       /\ Change cl = GoInt.sub (NewElo cl) (OldElo cl)
       /\ Change cr = GoInt.sub (NewElo cr) (OldElo cr).
Proof.
  intros Hl Hr Hne Hf. cbv zeta. unfold elo_after.
  destruct (applyScores_done w l r result rl rr sl sr Hl Hr Hne Hf)
    as (-> & -> & -> & _).
  split; [done|]. unfold projectScores. do 2 eexists.
  split; [reflexivity|]. cbn [OldElo NewElo Change fmap option_fmap option_map].
  destruct (written_Elo w result rl rr sl sr) as [-> ->]. done.
Qed.

(** C6.  For two different tracks that have their ratings and a result
    among the four, [SimulateDuel] leaves the world as it was and reports
    for each side the rating before, the rating after and their
    difference; when the writes succeed, the ratings after are the ones
    [ProcessDuel] stores for the same world. *)
Theorem SimulateDuel_agrees_with_ProcessDuel (w : World) (l r : Z)
    (result : string) (rl rr : Rating) :
  stored (db w) l = Some rl -> stored (db w) r = Some rr -> l <> r ->
  is_outcome result = true -> writes_succeed 3 (faults w) ->
  let sim := SimulateDuel l r result w in
  let out := ProcessDuel l r result w in
  snd sim = w /\ fst out = Ok tt
  /\ exists cl cr,
       fst sim = Ok [cl; cr]
       /\ OldElo cl = Elo rl /\ OldElo cr = Elo rr
       /\ elo_after out l = Some (NewElo cl)
       /\ elo_after out r = Some (NewElo cr)
       /\ Change cl = GoInt.sub (NewElo cl) (OldElo cl)
       /\ Change cr = GoInt.sub (NewElo cr) (OldElo cr).
Proof.
  intros Hl Hr Hne Hres Hf. cbv zeta. unfold SimulateDuel, ProcessDuel.
  rewrite (ProcessDuel_read w l r result rl rr _ Hl Hr).
  rewrite (ProcessDuel_read w l r result rl rr _ Hl Hr).
  destruct (is_outcome_true result Hres) as [-> | [-> | [-> | ->]]];
    cbn [String.eqb Ascii.eqb Bool.eqb WinnerLeft WinnerRight WinnerDraw
         WinnerSkip andb].
  - split; [done|]. cbn [fst mret M_ret].
    destruct (SimulateDuel_scored w l r WinnerLeft rl rr 1 0 Hl Hr Hne Hf)
      as (E & cl & cr & P & H).
    split; [done|]. exists cl, cr. by rewrite P.
  - split; [done|]. cbn [fst mret M_ret].
    destruct (SimulateDuel_scored w l r WinnerRight rl rr 0 1 Hl Hr Hne Hf)
      as (E & cl & cr & P & H).
    split; [done|]. exists cl, cr. by rewrite P.
  - split; [done|]. cbn [fst mret M_ret].
    destruct (SimulateDuel_scored w l r WinnerDraw rl rr (1 / 2) (1 / 2)
                Hl Hr Hne Hf) as (E & cl & cr & P & H).
    split; [done|]. exists cl, cr. by rewrite P.
  - split; [done|]. cbn [fst mret M_ret].
    apply writes_succeed_S in Hf as [Hf _].
    rewrite recordDuel_succeeds by done.
    split; [done|]. do 2 eexists. split; [reflexivity|].
    unfold elo_after. cbn [OldElo NewElo Change snd db].
    rewrite !sub_diag. repeat split.
    + change (Elo <$> stored (db w) l = Some (Elo rl)). by rewrite Hl.
    + change (Elo <$> stored (db w) r = Some (Elo rr)). by rewrite Hr.
Qed.

Lemma SimulateDuel_agrees_with_ProcessDuel_witness :
  let w := mkWorld (two_tracks 1400 1200) [] 0 in
  let sim := SimulateDuel 1 2 WinnerLeft w in
  let out := ProcessDuel 1 2 WinnerLeft w in
  snd sim = w /\ fst out = Ok tt
  /\ exists cl cr,
       fst sim = Ok [cl; cr]
       /\ OldElo cl = 1400 /\ OldElo cr = 1200
       /\ elo_after out 1 = Some (NewElo cl)
       /\ elo_after out 2 = Some (NewElo cr)
       /\ Change cl = GoInt.sub (NewElo cl) (OldElo cl)
       /\ Change cr = GoInt.sub (NewElo cr) (OldElo cr).
Proof.
  apply (SimulateDuel_agrees_with_ProcessDuel
           (mkWorld (two_tracks 1400 1200) [] 0) 1 2 WinnerLeft
           (mkRating 1 1400 0 0 0 0) (mkRating 2 1200 0 0 0 0));
    [reflexivity | reflexivity | lia | reflexivity | reflexivity].
Defined.

(** ** [ProcessDuel] when a write fails *)

(** C2, on the code.  Tracks 1 and 2 are rated 1200 and never played,
    track 1 wins, the first [UpdateRating] succeeds and the second fails.
    [ProcessDuel] returns the error of the second write; by then the row of
    track 1 holds its new rating 1216 and its win, while the row of track 2
    is what it was, and no duel is recorded. *)
Theorem ProcessDuel_second_write_fails :
  let w := mkWorld (two_tracks 1200 1200) [false; true] 7 in
  let out := ProcessDuel 1 2 WinnerLeft w in
  stored (db w) 1 = Some (mkRating 1 1200 0 0 0 0)
  /\ stored (db w) 2 = Some (mkRating 2 1200 0 0 0 0)
  /\ fst out = Err ErrExec
  /\ stored (db (snd out)) 1 = Some (mkRating 1 1216 1 0 0 7)
  /\ stored (db (snd out)) 2 = Some (mkRating 2 1200 0 0 0 0)
  /\ duels (db (snd out)) = [].
Proof.
  cbv zeta. do 2 (split; [reflexivity|]).
  set (w := mkWorld (two_tracks 1200 1200) [false; true] 7).
  set (rl := mkRating 1 1200 0 0 0 0). set (rr := mkRating 2 1200 0 0 0 0).
  assert (Hl : stored (db w) 1 = Some rl) by reflexivity.
  assert (Hr : stored (db w) 2 = Some rr) by reflexivity.
  rewrite (ProcessDuel_left w 1 2 rl rr Hl Hr).
  rewrite (applyScores_second_write_fails w 1 2 WinnerLeft rl rr 1 0)
    by done.
  cbn [fst snd db].
  destruct (stored_after_first_write w 1 2 WinnerLeft rl rr 1 0 Hl Hr)
    as [-> ->]; [lia|].
  rewrite duels_update_row.
  assert (Hw : fst (written w WinnerLeft rl rr 1 0) = mkRating 1 1216 1 0 0 7).
  { unfold written, count_result.
    change (String.eqb WinnerLeft WinnerLeft) with true.
    cbn [fst incr_wins with_elo TrackID Elo Wins Losses Draws LastSeenAt].
    change (GetKFactor (GetTotalBattles rl)) with 32.
    change (Elo rl) with 1200. change (Elo rr) with 1200.
    rewrite (proj1 NewElo_fresh_win). reflexivity. }
  by rewrite Hw.
Qed.

(** ** The matchmaker *)

Lemma abs_sub_gap (t c : TrackWithRating) :
  elo_bounded t -> elo_bounded c ->
  abs (GoInt.sub (Elo (rating c)) (Elo (rating t))) = gap t c
  /\ 0 <= gap t c < GoInt.MaxInt.
Proof.
  unfold elo_bounded, gap, abs, GoInt.sub, GoInt.neg, GoInt.MaxInt.
  intros Ht Hc.
  rewrite (wrap64_id (_ - _))
    by (unfold GoInt.in_int, GoInt.MinInt, GoInt.MaxInt; lia).
  destruct (Z.ltb_spec (Elo (rating c) - Elo (rating t)) 0).
  - rewrite wrap64_id
      by (unfold GoInt.in_int, GoInt.MinInt, GoInt.MaxInt; lia). lia.
  - lia.
Qed.

Lemma consider_keeps (ranged : bool) (t x : TrackWithRating)
    (seen : list TrackWithRating) (acc : option TrackWithRating * Z) :
  elo_bounded t -> elo_bounded x ->
  best_so_far ranged t seen acc ->
  best_so_far ranged t (seen ++ [x]) (consider ranged t acc x).
Proof.
  intros Ht Hx. destruct acc as [best bd]. unfold consider.
  destruct (abs_sub_gap t x Ht Hx) as [-> Hg].
  destruct (Z.eqb_spec (ID (track x)) (ID (track t))) as [Hid|Hid].
  - unfold best_so_far. cbn [fst snd].
    destruct best as [b|].
    + intros (Hb & Hbid & Hbd & Hrg & Hmin).
      split; [apply in_or_app; by left|]. do 3 (split; [done|]).
      intros c [Hc|[<-|[]]]%in_app_or Hcid; [by apply Hmin | done].
    + intros (Hbd & Hall). split; [done|].
      intros c [Hc|[<-|[]]]%in_app_or Hcid; [by apply Hall | done].
  - unfold best_so_far. cbn [fst snd].
    destruct best as [b|].
    + intros (Hb & Hbid & Hbd & Hrg & Hmin). subst bd.
      destruct ranged; cbn [andb].
      * destruct (Z.leb_spec (gap t x) EloRange);
          destruct (Z.ltb_spec (gap t x) (gap t b)); cbn [andb fst snd].
        -- split; [apply in_or_app; right; by left|]. do 3 (split; [done|]).
           intros c [Hc|[<-|[]]]%in_app_or Hcid; [|lia].
           specialize (Hmin c Hc Hcid). lia.
        -- split; [apply in_or_app; by left|]. do 3 (split; [done|]).
           intros c [Hc|[<-|[]]]%in_app_or Hcid; [by apply Hmin | lia].
        -- split; [apply in_or_app; by left|]. do 3 (split; [done|]).
           intros c [Hc|[<-|[]]]%in_app_or Hcid; [by apply Hmin | lia].
        -- split; [apply in_or_app; by left|]. do 3 (split; [done|]).
           intros c [Hc|[<-|[]]]%in_app_or Hcid; [by apply Hmin | lia].
      * destruct (Z.ltb_spec (gap t x) (gap t b)); cbn [andb fst snd].
        -- split; [apply in_or_app; right; by left|]. do 3 (split; [done|]).
           intros c [Hc|[<-|[]]]%in_app_or Hcid; [|lia].
           specialize (Hmin c Hc Hcid). lia.
        -- split; [apply in_or_app; by left|]. do 3 (split; [done|]).
           intros c [Hc|[<-|[]]]%in_app_or Hcid; [by apply Hmin | lia].
    + intros (Hbd & Hall). subst bd.
      destruct ranged; cbn [andb].
      * destruct (Z.leb_spec (gap t x) EloRange);
          destruct (Z.ltb_spec (gap t x) GoInt.MaxInt);
          cbn [andb fst snd]; try lia.
        -- split; [apply in_or_app; right; by left|]. do 3 (split; [done|]).
           intros c [Hc|[<-|[]]]%in_app_or Hcid; [|lia].
           specialize (Hall c Hc Hcid). cbn in Hall. lia.
        -- split; [done|].
           intros c [Hc|[<-|[]]]%in_app_or Hcid; [by apply Hall | done].
      * destruct (Z.ltb_spec (gap t x) GoInt.MaxInt);
          cbn [andb fst snd]; try lia.
        split; [apply in_or_app; right; by left|]. do 3 (split; [done|]).
        intros c [Hc|[<-|[]]]%in_app_or Hcid; [|lia].
        destruct (Hall c Hc Hcid).
Qed.

Lemma loop_keeps (ranged : bool) (t : TrackWithRating)
    (candidates : list TrackWithRating) :
  elo_bounded t -> Forall elo_bounded candidates ->
  best_so_far ranged t candidates
    (fold_left (consider ranged t) candidates (None, GoInt.MaxInt)).
Proof.
  intros Ht. induction candidates as [|x seen IH] using rev_ind; intros Hall.
  - split; [done|]. by intros c [].
  - apply Forall_app in Hall as [Hseen Hx%Forall_inv].
    rewrite fold_left_app. cbn [fold_left].
    apply consider_keeps; auto.
Qed.

Lemma findBestOpponent_closest (t : TrackWithRating)
    (candidates : list TrackWithRating) :
  elo_bounded t -> Forall elo_bounded candidates ->
  (exists c, In c candidates /\ ID (track c) <> ID (track t)) ->
  exists b,
    findBestOpponent t candidates = Some b
    /\ In b candidates /\ ID (track b) <> ID (track t)
    /\ forall c, In c candidates -> ID (track c) <> ID (track t) ->
                 gap t b <= gap t c.
Proof.
  intros Ht Hall (c0 & Hc0 & Hc0id). unfold findBestOpponent.
  pose proof (loop_keeps true t candidates Ht Hall) as H1.
  destruct (fold_left (consider true t) candidates (None, GoInt.MaxInt))
    as [[b|] bd] eqn:E1; unfold best_so_far in H1; cbn [fst snd] in *.
  - destruct H1 as (Hb & Hbid & _ & _ & Hmin). by exists b.
  - destruct H1 as [-> _].
    pose proof (loop_keeps false t candidates Ht Hall) as H2.
    destruct (fold_left (consider false t) candidates (None, GoInt.MaxInt))
      as [[b|] bd] eqn:E2; unfold best_so_far in H2; cbn [fst snd] in *.
    + destruct H2 as (Hb & Hbid & _ & _ & Hmin). by exists b.
    + destruct H2 as [_ H2]. destruct (H2 c0 Hc0 Hc0id).
Qed.

Lemma at_index_mod {A : Type} (l : list A) (d : Z) :
  l <> [] -> exists x, at_index l (d mod len l) = Some x /\ In x l.
Proof.
  intros Hl. unfold at_index, len.
  assert (0 < Z.of_nat (length l)) by (destruct l; [done | simpl; lia]).
  pose proof (Z.mod_pos_bound d (Z.of_nat (length l)) ltac:(lia)).
  destruct (lookup_lt_is_Some_2 l (Z.to_nat (d mod Z.of_nat (length l))))
    as [x Hx]; [lia|].
  exists x. split; [done|].
  apply list_elem_of_In. by eapply list_elem_of_lookup_2.
Qed.

Lemma other_candidate (l : list TrackWithRating) (t : TrackWithRating) :
  (2 <= length l)%nat -> NoDup (map (fun x => ID (track x)) l) ->
  exists c, In c l /\ ID (track c) <> ID (track t).
Proof.
  destruct l as [|a [|b l]]; simpl; try lia. intros _ Hnd.
  apply NoDup_cons in Hnd as [Ha _].
  destruct (Z.eq_dec (ID (track a)) (ID (track t))) as [Heq|Hneq].
  - exists b. split; [auto|]. intros Hb. apply Ha.
    apply list_elem_of_In. left. congruence.
  - exists a. auto.
Qed.

Lemma NoDup_map_filter {A B : Type} (g : A -> B) (f : A -> bool) (l : list A) :
  NoDup (map g l) -> NoDup (map g (List.filter f l)).
Proof.
  induction l as [|a l IH]; simpl; [done|].
  intros [Ha Hl]%NoDup_cons. destruct (f a); simpl; [|auto].
  apply NoDup_cons. split; [|auto].
  intros Hin. apply Ha.
  apply list_elem_of_In in Hin. apply list_elem_of_In.
  apply in_map_iff in Hin as (x & Hx & Hxin).
  apply in_map_iff. exists x. split; [done|].
  apply filter_In in Hxin. tauto.
Qed.

(** C7.  When at least two of the tracks are experienced, their
    identifiers differ and their ratings are far from the ends of [int],
    [balancedMatch] with a draw to consume hands back a left track among
    the experienced ones and, as its opponent, an experienced track other
    than the left one whose rating is at the least distance from the
    left one's among all such tracks; that distance is at most [EloRange]
    as soon as some such track is within [EloRange]. *)
Theorem balancedMatch_closest_opponent (tracks : list TrackWithRating)
    (d : Z) (rest : Rand) :
  let experienced := List.filter is_experienced tracks in
  (2 <= length experienced)%nat ->
  NoDup (map (fun t => ID (track t)) tracks) ->
  Forall elo_bounded tracks ->
  exists leftTrack bestOpponent,
    balancedMatch tracks (d :: rest)
    = Some ((Some leftTrack, Some bestOpponent), rest)
    /\ In leftTrack experienced /\ In bestOpponent experienced
    /\ ID (track bestOpponent) <> ID (track leftTrack)
    /\ (forall c, In c experienced -> ID (track c) <> ID (track leftTrack) ->
                  gap leftTrack bestOpponent <= gap leftTrack c)
    /\ ((exists c, In c experienced /\ ID (track c) <> ID (track leftTrack)
                   /\ gap leftTrack c <= EloRange) ->
        gap leftTrack bestOpponent <= EloRange).
Proof.
  intros experienced Hlen Hnd Hall.
  assert (Hexp : Forall elo_bounded experienced).
  { apply List.Forall_forall. intros x [Hx _]%filter_In.
    by eapply List.Forall_forall in Hall. }
  assert (Hne : experienced <> []) by (destruct experienced; simpl in *; [lia|done]).
  destruct (at_index_mod experienced d Hne) as (leftTrack & Hat & Hin).
  assert (Hlt : elo_bounded leftTrack) by (by eapply List.Forall_forall in Hexp).
  destruct (findBestOpponent_closest leftTrack experienced Hlt Hexp)
    as (b & Hfind & Hb & Hbid & Hmin).
  { apply other_candidate; [done|]. by apply NoDup_map_filter. }
  exists leftTrack, b. split; [|repeat split; try done].
  - unfold balancedMatch. fold experienced.
    destruct (Z.ltb_spec (len experienced) 2) as [Hl2|_];
      [unfold len in Hl2; lia|].
    cbn [Intn]. rewrite Hat. by rewrite Hfind.
  - intros (c & Hc & Hcid & Hcg). specialize (Hmin c Hc Hcid). lia.
Qed.

Lemma balancedMatch_closest_opponent_witness :
  let tracks := [a_track 1 1500 5; a_track 2 1300 6; a_track 3 1480 7;
                 a_track 4 1200 0] in
  let experienced := List.filter is_experienced tracks in
  exists leftTrack bestOpponent,
    balancedMatch tracks [0; 9]
    = Some ((Some leftTrack, Some bestOpponent), [9])
    /\ In leftTrack experienced /\ In bestOpponent experienced
    /\ ID (track bestOpponent) <> ID (track leftTrack)
    /\ (forall c, In c experienced -> ID (track c) <> ID (track leftTrack) ->
                  gap leftTrack bestOpponent <= gap leftTrack c)
    /\ ((exists c, In c experienced /\ ID (track c) <> ID (track leftTrack)
                   /\ gap leftTrack c <= EloRange) ->
        gap leftTrack bestOpponent <= EloRange).
Proof.
  apply (balancedMatch_closest_opponent
           [a_track 1 1500 5; a_track 2 1300 6; a_track 3 1480 7;
            a_track 4 1200 0] 0 [9]).
  - vm_compute. lia.
  - apply (bool_decide_unpack _). vm_compute. reflexivity.
  - repeat constructor; vm_compute; reflexivity.
Defined.

(** C3, on the code.  Tracks 1 and 2 are the whole collection, both never
    played, and the draws are 0 and 0.  [GetNextMatch] explores, takes track
    1 on the left, keeps as opponents the tracks whose position differs
    from the identifier 1, which leaves track 1 alone, and hands back
    track 1 on both sides. *)
Theorem GetNextMatch_same_track_twice :
  let t1 := a_track 1 1200 0 in
  let t2 := a_track 2 1200 0 in
  othersFrom 0 (ID (track t1)) [t1; t2] = [t1]
  /\ GetNextMatch (Ok [t1; t2]) [0; 0] = Some (inr (Some t1, Some t1), []).
Proof. split; vm_compute; reflexivity. Qed.

(** * Further properties of the code *)

(** ** The Elo formulas *)

Lemma wrap64_opp (x : Z) :
  GoInt.wrap64 x <> GoInt.MinInt -> GoInt.wrap64 (- x) = - GoInt.wrap64 x.
Proof.
  unfold GoInt.wrap64, GoInt.MinInt. intros Hx.
  pose proof (Z.mod_pos_bound (x + 2 ^ 63) (2 ^ 64) ltac:(lia)) as Hb.
  pose proof (Z.div_mod (x + 2 ^ 63) (2 ^ 64) ltac:(lia)) as Hd.
  set (q := (x + 2 ^ 63) / 2 ^ 64) in *.
  set (m := (x + 2 ^ 63) mod 2 ^ 64) in *.
  replace (- x + 2 ^ 63) with ((2 ^ 64 - m) + (- q) * 2 ^ 64) by lia.
  rewrite Z_mod_plus_full. rewrite Z.mod_small by lia. lia.
Qed.

Lemma Round_error (x : R) : (- / 2 <= IZR (GoFloat.Round x) - x <= / 2)%R.
Proof.
  destruct (Rle_dec 0 x) as [Hx|Hx].
  - pose proof (Round_nonneg_bounds x Hx). lra.
  - pose proof (Round_neg_bounds x ltac:(lra)). lra.
Qed.

Lemma ExpectedScore_sum (eloA eloB : Z) :
  GoInt.sub eloB eloA <> GoInt.MinInt ->
  (CalculateExpectedScore eloA eloB + CalculateExpectedScore eloB eloA = 1)%R.
Proof.
  intros Hd. unfold CalculateExpectedScore.
  assert (Hs : GoInt.sub eloA eloB = - GoInt.sub eloB eloA).
  { unfold GoInt.sub in *. rewrite <- wrap64_opp by done. f_equal. lia. }
  rewrite Hs, opp_IZR.
  set (x := (IZR (GoInt.sub eloB eloA) / 400)%R).
  replace (- IZR (GoInt.sub eloB eloA) / 400)%R with (Ropp x)
    by (unfold x; lra).
  unfold GoFloat.Pow10. rewrite Rpower_Ropp.
  pose proof (Pow10_pos x) as Hp. unfold GoFloat.Pow10 in Hp.
  set (p := Rpower 10 x) in *. field. lra.
Qed.

(** X1.  The expected score lies strictly between 0 and 1 for every pair
    of ratings, and the expected scores of the two sides add up to 1 as
    long as the difference of the two ratings, as [int] computes it, is not
    the least [int]. *)
Theorem ExpectedScore_symmetric (eloA eloB : Z) :
  (0 < CalculateExpectedScore eloA eloB < 1)%R
  /\ (GoInt.sub eloB eloA <> GoInt.MinInt ->
      (CalculateExpectedScore eloA eloB + CalculateExpectedScore eloB eloA
       = 1)%R).
Proof.
  split; [apply ExpectedScore_bounds | apply ExpectedScore_sum].
Qed.

(** X2.  The factor K never grows with the number of battles, and stays
    between 16 and 32. *)
Theorem GetKFactor_antitone (m n : Z) :
  m <= n -> 16 <= GetKFactor n <= GetKFactor m /\ GetKFactor m <= 32.
Proof.
  unfold GetKFactor, NewPlayerThreshold, ExperiencedPlayerThreshold,
    MaxK, MidK, MinK.
  intros H.
  destruct (Z.ltb_spec m 10), (Z.ltb_spec m 30), (Z.ltb_spec n 10),
    (Z.ltb_spec n 30); lia.
Qed.

Lemma GetKFactor_antitone_witness :
  16 <= GetKFactor 30 <= GetKFactor 9 /\ GetKFactor 9 <= 32.
Proof. apply GetKFactor_antitone. lia. Defined.

(** X3.  For scores between 0 and 1 and a factor that is not negative,
    [CalculateNewElo] moves the rating by at most the factor. *)
Theorem CalculateNewElo_within_K (oldElo k : Z) (s e : R) :
  (0 <= s <= 1)%R -> (0 <= e <= 1)%R -> 0 <= k ->
  Z.abs (CalculateNewElo oldElo s e k - oldElo) <= k.
Proof.
  intros Hs He Hk. unfold CalculateNewElo.
  apply IZR_le in Hk.
  set (x := (IZR oldElo + IZR k * (s - e))%R).
  assert (Hlo : (IZR (oldElo - k) <= x)%R) by (rewrite minus_IZR; unfold x; nra).
  assert (Hhi : (x <= IZR (oldElo + k))%R) by (rewrite plus_IZR; unfold x; nra).
  apply Round_mono in Hlo, Hhi. rewrite Round_IZR in Hlo, Hhi. lia.
Qed.

Lemma CalculateNewElo_within_K_witness :
  Z.abs (CalculateNewElo 1200 1 (1 / 2) 32 - 1200) <= 32.
Proof. apply CalculateNewElo_within_K; [lra | lra | lia]. Defined.

(** ** [ProcessDuel] over every script of write outcomes *)

Lemma writes_succeed_cons (n : nat) (fs : list bool) :
  head fs <> Some true -> writes_succeed n (tail fs) ->
  writes_succeed (S n) fs.
Proof.
  unfold writes_succeed. destruct fs as [|[] fs]; simpl; try done.
Qed.

Lemma recordDuel_fails (w : World) (l r : Z) (winner : option Z) :
  head (faults w) = Some true ->
  recordDuelWithoutEloChange l r winner w
  = (Err ErrExec, mkWorld (db w) (tail (faults w)) (clock w + 1)).
Proof.
  intros H. unfold recordDuelWithoutEloChange.
  erewrite bind_Ok by reflexivity.
  unfold CreateDuel. by rewrite Exec_fails.
Qed.

Lemma applyScores_third_write_fails (w : World) (l r : Z) (result : string)
    (rl rr : Rating) (sl sr : R) :
  head (faults w) <> Some true -> head (tail (faults w)) <> Some true ->
  head (tail (tail (faults w))) = Some true ->
  applyScores l r result rl rr sl sr w
  = (Err ErrExec,
     mkWorld (update_row (snd (written w result rl rr sl sr))
                (update_row (fst (written w result rl rr sl sr)) (db w)))
             (tail (tail (tail (faults w)))) (clock w + 1 + 1 + 1)).
Proof.
  intros Hf1 Hf2 Hf3. rewrite applyScores_unfold.
  erewrite bind_Ok; [|unfold UpdateRating; by rewrite Exec_succeeds].
  erewrite bind_Ok; [|unfold UpdateRating; by rewrite Exec_succeeds].
  by rewrite recordDuel_fails.
Qed.

(** Every way a call of [applyScores] can end. *)
Lemma applyScores_cases (w : World) (l r : Z) (result : string)
    (rl rr : Rating) (sl sr : R) :
  let out := applyScores l r result rl rr sl sr w in
  let a := fst (written w result rl rr sl sr) in
  let b := snd (written w result rl rr sl sr) in
  (fst out = Err ErrExec /\ db (snd out) = db w
   /\ head (faults w) = Some true)
  \/ (fst out = Err ErrExec /\ db (snd out) = update_row a (db w))
  \/ (fst out = Err ErrExec
      /\ db (snd out) = update_row b (update_row a (db w)))
  \/ (fst out = Ok tt /\ writes_succeed 3 (faults w)
      /\ db (snd out)
         = mkDB (ratings (update_row b (update_row a (db w))))
                (duels (db w)
                 ++ [mkDuel (duel_seq (db w) + 1) l r (winner_of result l r)
                            (clock w + 1 + 1)])
                (duel_seq (db w) + 1)).
Proof.
  cbv zeta.
  destruct (decide (head (faults w) = Some true)) as [H1|H1].
  { left. by rewrite applyScores_first_write_fails. }
  destruct (decide (head (tail (faults w)) = Some true)) as [H2|H2].
  { right; left. by rewrite applyScores_second_write_fails. }
  destruct (decide (head (tail (tail (faults w))) = Some true)) as [H3|H3].
  { right; right; left. by rewrite applyScores_third_write_fails. }
  right; right; right.
  assert (Hf : writes_succeed 3 (faults w)).
  { do 3 (apply writes_succeed_cons; [done|]). done. }
  by rewrite applyScores_succeeds.
Qed.

Lemma ProcessDuel_rating_missing_left (w : World) (l r : Z) (result : string) :
  stored (db w) l = None -> ProcessDuel l r result w = (Err ErrNoRows, w).
Proof.
  intros Hl. unfold ProcessDuel.
  by rewrite (bind_Err _ _ _ _ _ (GetRating_missing w l Hl)).
Qed.

Lemma ProcessDuel_rating_missing_right (w : World) (l r : Z) (result : string)
    (rl : Rating) :
  stored (db w) l = Some rl -> stored (db w) r = None ->
  ProcessDuel l r result w = (Err ErrNoRows, w).
Proof.
  intros Hl Hr. unfold ProcessDuel.
  rewrite (bind_Ok _ _ _ _ _ (GetRating_found w l rl Hl)).
  by rewrite (bind_Err _ _ _ _ _ (GetRating_missing w r Hr)).
Qed.

(** Every way a call of [ProcessDuel] can end: nothing written; the row
    of [l] written; the rows of [l] and [r] written; a duel recorded on top
    of the ratings as they were or with both rows written. *)
Lemma ProcessDuel_cases (w : World) (l r : Z) (result : string) :
  let out := ProcessDuel l r result w in
  (db (snd out) = db w /\ (fst out = Ok tt -> is_outcome result = false))
  \/ (exists a, TrackID a = l /\ fst out = Err ErrExec
                /\ db (snd out) = update_row a (db w))
  \/ (exists a b, TrackID a = l /\ TrackID b = r /\ fst out = Err ErrExec
                  /\ db (snd out) = update_row b (update_row a (db w)))
  \/ (exists d0 x,
        fst out = Ok tt /\ is_outcome result = true
        /\ (d0 = db w
            \/ exists a b, TrackID a = l /\ TrackID b = r
                           /\ d0 = update_row b (update_row a (db w)))
        /\ LeftTrackID x = l /\ RightTrackID x = r
        /\ DuelID x = duel_seq (db w) + 1
        /\ db (snd out)
           = mkDB (ratings d0) (duels (db w) ++ [x]) (duel_seq (db w) + 1)).
Proof.
  cbv zeta.
  destruct (stored (db w) l) as [rl|] eqn:Hl;
    [|left; rewrite ProcessDuel_rating_missing_left by done; by split].
  destruct (stored (db w) r) as [rr|] eqn:Hr;
    [|left; rewrite (ProcessDuel_rating_missing_right w l r result rl) by done;
      by split].
  assert (Hscored : forall sl sr,
    let out := applyScores l r result rl rr sl sr w in
    is_outcome result = true ->
    (db (snd out) = db w /\ (fst out = Ok tt -> is_outcome result = false))
    \/ (exists a, TrackID a = l /\ fst out = Err ErrExec
                  /\ db (snd out) = update_row a (db w))
    \/ (exists a b, TrackID a = l /\ TrackID b = r /\ fst out = Err ErrExec
                    /\ db (snd out) = update_row b (update_row a (db w)))
    \/ (exists d0 x,
          fst out = Ok tt /\ is_outcome result = true
          /\ (d0 = db w
              \/ exists a b, TrackID a = l /\ TrackID b = r
                             /\ d0 = update_row b (update_row a (db w)))
          /\ LeftTrackID x = l /\ RightTrackID x = r
          /\ DuelID x = duel_seq (db w) + 1
          /\ db (snd out)
             = mkDB (ratings d0) (duels (db w) ++ [x]) (duel_seq (db w) + 1))).
  { intros sl sr out Hres. subst out.
    pose proof (written_left_key w l result rl rr sl sr Hl) as Ka.
    pose proof (written_right_key w r result rl rr sl sr Hr) as Kb.
    destruct (applyScores_cases w l r result rl rr sl sr)
      as [(E & D & _)|[(E & D)|[(E & D)|(E & _ & D)]]].
    - left. split; [done|]. by rewrite E.
    - right; left. eauto.
    - right; right; left. eauto 10.
    - right; right; right. do 2 eexists.
      split; [done|]. split; [done|].
      split; [right; eauto 10|]. split; [|split; [|split; [|exact D]]]; done. }
  unfold ProcessDuel.
  rewrite (ProcessDuel_read w l r result rl rr _ Hl Hr).
  destruct (String.eqb result WinnerLeft) eqn:E1.
  { apply Hscored. unfold is_outcome. by rewrite E1. }
  destruct (String.eqb result WinnerRight) eqn:E2.
  { apply Hscored. unfold is_outcome. by rewrite E1, E2. }
  destruct (String.eqb result WinnerDraw) eqn:E3.
  { apply Hscored. unfold is_outcome. by rewrite E1, E2, E3. }
  destruct (String.eqb result WinnerSkip) eqn:E4.
  - destruct (decide (head (faults w) = Some true)) as [H1|H1].
    + left. rewrite recordDuel_fails by done. by split.
    + right; right; right. rewrite recordDuel_succeeds by done.
      do 2 eexists. split; [done|].
      split; [unfold is_outcome; by rewrite E1, E2, E3, E4|].
      split; [by left|]. split; [|split; [|split; [|reflexivity]]]; done.
  - left. split; [done|]. intros _. unfold is_outcome.
    by rewrite E1, E2, E3, E4.
Qed.

Lemma ratings_update_row_ne (d : DB) (a : Rating) (k : Z) :
  k <> TrackID a -> ratings (update_row a d) !! k = ratings d !! k.
Proof.
  intros Hk. unfold update_row.
  destruct (ratings d !! TrackID a); [|done]. simpl.
  by rewrite lookup_insert_ne.
Qed.

Lemma ratings_update_row_keys (d : DB) (a : Rating) (k : Z) :
  is_Some (ratings (update_row a d) !! k) <-> is_Some (ratings d !! k).
Proof.
  unfold update_row.
  destruct (ratings d !! TrackID a) as [row|] eqn:Ha; [|done]. simpl.
  destruct (decide (k = TrackID a)) as [->|Hk].
  - rewrite lookup_insert_eq, Ha. split; eauto.
  - by rewrite lookup_insert_ne.
Qed.

(** X4.  Whatever the result passed and whichever writes fail,
    [ProcessDuel] leaves the rating rows of all tracks other than the two
    it is called with as they were, and neither adds a row to table
    [ratings] nor removes one. *)
Theorem ProcessDuel_touches_only_its_rows (w : World) (l r : Z)
    (result : string) :
  let out := ProcessDuel l r result w in
  (forall k, k <> l -> k <> r ->
             ratings (db (snd out)) !! k = ratings (db w) !! k)
  /\ (forall k, is_Some (ratings (db (snd out)) !! k)
                <-> is_Some (ratings (db w) !! k)).
Proof.
  cbv zeta.
  destruct (ProcessDuel_cases w l r result)
    as [(D & _)|[(a & Ka & _ & D)|[(a & b & Ka & Kb & _ & D)
       |(d0 & x & _ & _ & [->|(a & b & Ka & Kb & ->)] & _ & _ & _ & D)]]];
    rewrite D; cbn [ratings]; subst.
  - done.
  - split; intros k; [intros Hl Hr|].
    + by rewrite ratings_update_row_ne.
    + apply ratings_update_row_keys.
  - split; intros k; [intros Hl Hr|].
    + by rewrite !ratings_update_row_ne.
    + by rewrite !ratings_update_row_keys.
  - done.
  - split; intros k; [intros Hl Hr|].
    + by rewrite !ratings_update_row_ne.
    + by rewrite !ratings_update_row_keys.
Qed.

(** X5.  [ProcessDuel] records a duel exactly when it succeeds on one
    of the four results: a call that returns an error leaves table [duels]
    as it was, a call that succeeds on one of the four results adds one
    row between its two tracks at the end, and a call that succeeds on any
    other result leaves the whole database as it was. *)
Theorem ProcessDuel_records_on_success_only (w : World) (l r : Z)
    (result : string) :
  let out := ProcessDuel l r result w in
  (forall e, fst out = Err e -> duels (db (snd out)) = duels (db w))
  /\ (fst out = Ok tt -> is_outcome result = true ->
      exists x, LeftTrackID x = l /\ RightTrackID x = r
                /\ DuelID x = duel_seq (db w) + 1
                /\ duels (db (snd out)) = duels (db w) ++ [x])
  /\ (fst out = Ok tt -> is_outcome result = false -> db (snd out) = db w).
Proof.
  cbv zeta.
  destruct (ProcessDuel_cases w l r result)
    as [(D & HO)|[(a & Ka & E & D)|[(a & b & Ka & Kb & E & D)
       |(d0 & x & E & HO & _ & Kl & Kr & Ki & D)]]];
    rewrite D.
  - repeat split; try done. intros HOk Hres. apply HO in HOk. congruence.
  - rewrite E, duels_update_row. repeat split; done.
  - rewrite E, !duels_update_row. repeat split; done.
  - rewrite E. cbn [duels]. split; [done|]. split; [|congruence].
    intros _ _. by exists x.
Qed.

(** X6.  When the first write statement of a call fails, [ProcessDuel]
    leaves the whole database as it was, and returns an error if the two
    tracks have their ratings and the result is one of the four. *)
Theorem ProcessDuel_first_write_fails (w : World) (l r : Z) (result : string) :
  head (faults w) = Some true ->
  let out := ProcessDuel l r result w in
  db (snd out) = db w
  /\ (is_Some (stored (db w) l) -> is_Some (stored (db w) r) ->
      is_outcome result = true -> fst out = Err ErrExec).
Proof.
  intros Hf. cbv zeta.
  destruct (stored (db w) l) as [rl|] eqn:Hl;
    [|rewrite ProcessDuel_rating_missing_left by done;
      split; [done|]; by intros []].
  destruct (stored (db w) r) as [rr|] eqn:Hr;
    [|rewrite (ProcessDuel_rating_missing_right w l r result rl) by done;
      split; [done|]; by intros _ []].
  unfold ProcessDuel.
  rewrite (ProcessDuel_read w l r result rl rr _ Hl Hr).
  unfold is_outcome.
  destruct (String.eqb result WinnerLeft);
    [by rewrite applyScores_first_write_fails|].
  destruct (String.eqb result WinnerRight);
    [by rewrite applyScores_first_write_fails|].
  destruct (String.eqb result WinnerDraw);
    [by rewrite applyScores_first_write_fails|].
  destruct (String.eqb result WinnerSkip);
    [by rewrite recordDuel_fails|].
  done.
Qed.

Lemma ProcessDuel_first_write_fails_witness :
  let w := mkWorld (two_tracks 1200 1200) [true] 0 in
  let out := ProcessDuel 1 2 WinnerLeft w in
  db (snd out) = db w
  /\ (is_Some (stored (db w) 1) -> is_Some (stored (db w) 2) ->
      is_outcome WinnerLeft = true -> fst out = Err ErrExec).
Proof.
  apply (ProcessDuel_first_write_fails
           (mkWorld (two_tracks 1200 1200) [true] 0) 1 2 WinnerLeft).
  reflexivity.
Defined.

(** X7.  A draw between two different tracks with the same rating, the
    writes succeeding, leaves both ratings as they were and counts one
    more draw for each side. *)
Theorem ProcessDuel_draw_between_equals (w : World) (l r : Z)
    (rl rr : Rating) :
  stored (db w) l = Some rl -> stored (db w) r = Some rr -> l <> r ->
  Elo rl = Elo rr -> writes_succeed 3 (faults w) ->
  let out := ProcessDuel l r WinnerDraw w in
  fst out = Ok tt
  /\ exists a b,
       stored (db (snd out)) l = Some a /\ stored (db (snd out)) r = Some b
       /\ Elo a = Elo rl /\ Elo b = Elo rr
       /\ Draws a = GoInt.incr (Draws rl) /\ Draws b = GoInt.incr (Draws rr)
       /\ Wins a = Wins rl /\ Losses a = Losses rl
       /\ Wins b = Wins rr /\ Losses b = Losses rr.
Proof.
  intros Hl Hr Hne He Hf. cbv zeta.
  rewrite (ProcessDuel_draw w l r rl rr Hl Hr).
  destruct (applyScores_done w l r WinnerDraw rl rr (1 / 2) (1 / 2)
              Hl Hr Hne Hf) as (-> & -> & -> & _).
  split; [done|]. do 2 eexists. do 2 (split; [reflexivity|]).
  unfold written, count_result.
  change (String.eqb WinnerDraw WinnerLeft) with false.
  change (String.eqb WinnerDraw WinnerRight) with false.
  change (String.eqb WinnerDraw WinnerDraw) with true.
  cbn [fst snd incr_draws with_elo Elo Wins Losses Draws].
  rewrite <- He, ExpectedScore_same. unfold CalculateNewElo.
  replace (IZR (Elo rl) + IZR (GetKFactor (GetTotalBattles rl)) * (1 / 2 - 1 / 2))%R
    with (IZR (Elo rl)) by lra.
  replace (IZR (Elo rl) + IZR (GetKFactor (GetTotalBattles rr)) * (1 / 2 - 1 / 2))%R
    with (IZR (Elo rl)) by lra.
  rewrite Round_IZR. done.
Qed.

Lemma ProcessDuel_draw_between_equals_witness :
  let w := mkWorld (two_tracks 1300 1300) [] 0 in
  let out := ProcessDuel 1 2 WinnerDraw w in
  fst out = Ok tt
  /\ exists a b,
       stored (db (snd out)) 1 = Some a /\ stored (db (snd out)) 2 = Some b
       /\ Elo a = 1300 /\ Elo b = 1300
       /\ Draws a = GoInt.incr 0 /\ Draws b = GoInt.incr 0
       /\ Wins a = 0 /\ Losses a = 0 /\ Wins b = 0 /\ Losses b = 0.
Proof.
  apply (ProcessDuel_draw_between_equals
           (mkWorld (two_tracks 1300 1300) [] 0) 1 2
           (mkRating 1 1300 0 0 0 0) (mkRating 2 1300 0 0 0 0));
    [reflexivity | reflexivity | lia | reflexivity | reflexivity].
Defined.

Lemma NewElo_pair_sum (eloL eloR k : Z) (sl sr el er : R) :
  (sl + sr = 1)%R -> (el + er = 1)%R ->
  Z.abs (CalculateNewElo eloL sl el k + CalculateNewElo eloR sr er k
         - (eloL + eloR)) <= 1.
Proof.
  intros Hs He. unfold CalculateNewElo.
  set (x := (IZR eloL + IZR k * (sl - el))%R).
  set (y := (IZR eloR + IZR k * (sr - er))%R).
  pose proof (Round_error x) as Hx. pose proof (Round_error y) as Hy.
  assert (Hxy : (x + y = IZR eloL + IZR eloR)%R) by (unfold x, y; nra).
  apply Z.abs_le. split; apply le_IZR;
    rewrite ?opp_IZR, minus_IZR, !plus_IZR; lra.
Qed.

(** X8.  When a win or a draw between two different tracks that use the
    same factor K is processed, the writes succeeding, the sum of the two
    stored ratings changes by at most one point (the difference of the two
    ratings not being the least [int]). *)
Theorem ProcessDuel_conserves_points (w : World) (l r : Z) (result : string)
    (rl rr : Rating) :
  stored (db w) l = Some rl -> stored (db w) r = Some rr -> l <> r ->
  result = WinnerLeft \/ result = WinnerRight \/ result = WinnerDraw ->
  GetKFactor (GetTotalBattles rl) = GetKFactor (GetTotalBattles rr) ->
  GoInt.sub (Elo rr) (Elo rl) <> GoInt.MinInt ->
  writes_succeed 3 (faults w) ->
  let out := ProcessDuel l r result w in
  exists a b, elo_after out l = Some a /\ elo_after out r = Some b
              /\ Z.abs (a + b - (Elo rl + Elo rr)) <= 1.
Proof.
  intros Hl Hr Hne Hres HK Hd Hf. cbv zeta. unfold elo_after.
  pose proof (ExpectedScore_sum (Elo rl) (Elo rr) Hd) as HE.
  destruct Hres as [-> | [-> | ->]].
  - rewrite (ProcessDuel_left w l r rl rr Hl Hr).
    destruct (applyScores_done w l r WinnerLeft rl rr 1 0 Hl Hr Hne Hf)
      as (_ & -> & -> & _).
    do 2 eexists. do 2 (split; [reflexivity|]).
    destruct (written_Elo w WinnerLeft rl rr 1 0) as [-> ->].
    rewrite HK. apply NewElo_pair_sum; lra.
  - rewrite (ProcessDuel_right w l r rl rr Hl Hr).
    destruct (applyScores_done w l r WinnerRight rl rr 0 1 Hl Hr Hne Hf)
      as (_ & -> & -> & _).
    do 2 eexists. do 2 (split; [reflexivity|]).
    destruct (written_Elo w WinnerRight rl rr 0 1) as [-> ->].
    rewrite HK. apply NewElo_pair_sum; lra.
  - rewrite (ProcessDuel_draw w l r rl rr Hl Hr).
    destruct (applyScores_done w l r WinnerDraw rl rr (1 / 2) (1 / 2)
                Hl Hr Hne Hf) as (_ & -> & -> & _).
    do 2 eexists. do 2 (split; [reflexivity|]).
    destruct (written_Elo w WinnerDraw rl rr (1 / 2) (1 / 2)) as [-> ->].
    rewrite HK. apply NewElo_pair_sum; lra.
Qed.

Lemma ProcessDuel_conserves_points_witness :
  let w := mkWorld (two_tracks 1400 1200) [] 0 in
  let out := ProcessDuel 1 2 WinnerRight w in
  exists a b, elo_after out 1 = Some a /\ elo_after out 2 = Some b
              /\ Z.abs (a + b - (1400 + 1200)) <= 1.
Proof.
  apply (ProcessDuel_conserves_points
           (mkWorld (two_tracks 1400 1200) [] 0) 1 2 WinnerRight
           (mkRating 1 1400 0 0 0 0) (mkRating 2 1200 0 0 0 0));
    [reflexivity | reflexivity | lia | right; left; reflexivity
    | reflexivity | vm_compute; discriminate | reflexivity].
Defined.

(** X9.  A win or a draw between two different tracks, the writes
    succeeding, counts one more win for the winner and one more loss for
    the loser, or one more draw for both, stamps the two rows with the two
    readings of the clock, and the duel it records at the end of table
    [duels] names the winner, or nobody for a draw. *)
Theorem ProcessDuel_counts_and_records (w : World) (l r : Z)
    (rl rr : Rating) :
  stored (db w) l = Some rl -> stored (db w) r = Some rr -> l <> r ->
  writes_succeed 3 (faults w) ->
  forall result expected_l expected_r winner,
    (result, expected_l, expected_r, winner)
    ∈ [ (WinnerLeft, (GoInt.incr (Wins rl), Losses rl, Draws rl),
         (Wins rr, GoInt.incr (Losses rr), Draws rr), Some l);
        (WinnerRight, (Wins rl, GoInt.incr (Losses rl), Draws rl),
         (GoInt.incr (Wins rr), Losses rr, Draws rr), Some r);
        (WinnerDraw, (Wins rl, Losses rl, GoInt.incr (Draws rl)),
         (Wins rr, Losses rr, GoInt.incr (Draws rr)), None) ] ->
    let out := ProcessDuel l r result w in
    exists a b x,
      stored (db (snd out)) l = Some a /\ stored (db (snd out)) r = Some b
      /\ counters a = expected_l /\ counters b = expected_r
      /\ LastSeenAt a = clock w /\ LastSeenAt b = clock w + 1
      /\ last (duels (db (snd out))) = Some x
      /\ WinnerTrackID x = winner /\ CreatedAt x = clock w + 1 + 1.
Proof.
  intros Hl Hr Hne Hf result el er wn Hin. cbv zeta.
  repeat (apply elem_of_cons in Hin as [Hin|Hin]);
    [| | |by apply elem_of_nil in Hin]; injection Hin as -> -> -> ->.
  - rewrite (ProcessDuel_left w l r rl rr Hl Hr).
    destruct (applyScores_done w l r WinnerLeft rl rr 1 0 Hl Hr Hne Hf)
      as (_ & -> & -> & ->).
    do 3 eexists. do 2 (split; [reflexivity|]).
    rewrite last_snoc. done.
  - rewrite (ProcessDuel_right w l r rl rr Hl Hr).
    destruct (applyScores_done w l r WinnerRight rl rr 0 1 Hl Hr Hne Hf)
      as (_ & -> & -> & ->).
    do 3 eexists. do 2 (split; [reflexivity|]).
    rewrite last_snoc. done.
  - rewrite (ProcessDuel_draw w l r rl rr Hl Hr).
    destruct (applyScores_done w l r WinnerDraw rl rr (1 / 2) (1 / 2)
                Hl Hr Hne Hf) as (_ & -> & -> & ->).
    do 3 eexists. do 2 (split; [reflexivity|]).
    rewrite last_snoc. done.
Qed.

Lemma ProcessDuel_counts_and_records_witness :
  let w := mkWorld (two_tracks 1400 1200) [] 5 in
  let out := ProcessDuel 1 2 WinnerLeft w in
  exists a b x,
    stored (db (snd out)) 1 = Some a /\ stored (db (snd out)) 2 = Some b
    /\ counters a = (GoInt.incr 0, 0, 0) /\ counters b = (0, GoInt.incr 0, 0)
    /\ LastSeenAt a = 5 /\ LastSeenAt b = 5 + 1
    /\ last (duels (db (snd out))) = Some x
    /\ WinnerTrackID x = Some 1 /\ CreatedAt x = 5 + 1 + 1.
Proof.
  apply (ProcessDuel_counts_and_records
           (mkWorld (two_tracks 1400 1200) [] 5) 1 2
           (mkRating 1 1400 0 0 0 0) (mkRating 2 1200 0 0 0 0));
    [reflexivity | reflexivity | lia | reflexivity | constructor].
Defined.

(** ** [SimulateDuel] and the store *)

(** X10.  [SimulateDuel] never changes the world.  It fails, with the
    error of the lookup, exactly when one of the two tracks has no rating;
    otherwise it reports two changes for a result among the four and none
    for any other result. *)
Theorem SimulateDuel_reads_only (w : World) (l r : Z) (result : string) :
  let sim := SimulateDuel l r result w in
  snd sim = w
  /\ (fst sim = Err ErrNoRows
      <-> stored (db w) l = None \/ stored (db w) r = None)
  /\ (is_Some (stored (db w) l) -> is_Some (stored (db w) r) ->
      exists changes,
        fst sim = Ok changes
        /\ length changes = if is_outcome result then 2%nat else 0%nat).
Proof.
  cbv zeta. unfold SimulateDuel.
  destruct (stored (db w) l) as [rl|] eqn:Hl.
  - destruct (stored (db w) r) as [rr|] eqn:Hr.
    + rewrite (ProcessDuel_read w l r result rl rr _ Hl Hr).
      unfold is_outcome.
      destruct (String.eqb result WinnerLeft); cbn [orb];
        [split; [done|]; split; [split; [done|by intros [|]]|]; eauto|].
      destruct (String.eqb result WinnerRight); cbn [orb];
        [split; [done|]; split; [split; [done|by intros [|]]|]; eauto|].
      destruct (String.eqb result WinnerDraw); cbn [orb];
        [split; [done|]; split; [split; [done|by intros [|]]|]; eauto|].
      destruct (String.eqb result WinnerSkip); cbn [orb];
        split; try done; (split; [split; [done|by intros [|]]|]; eauto).
    + rewrite (bind_Ok _ _ _ _ _ (GetRating_found w l rl Hl)).
      rewrite (bind_Err _ _ _ _ _ (GetRating_missing w r Hr)).
      split; [done|]. split; [split; auto|]. by intros _ [].
  - rewrite (bind_Err _ _ _ _ _ (GetRating_missing w l Hl)).
    split; [done|]. split; [split; auto|]. by intros [].
Qed.

(** X11.  A write of a rating that does not fail succeeds whether or not
    the track has a row: when it has one, reading the rating back gives
    what was written; when it has none, the database is left as it was and
    the rating is still missing. *)
Theorem UpdateRating_then_GetRating (w : World) (x : Rating) :
  head (faults w) <> Some true ->
  let w' := snd (UpdateRating x w) in
  fst (UpdateRating x w) = Ok tt
  /\ (is_Some (stored (db w) (TrackID x)) ->
      GetRating (TrackID x) w' = (Ok x, w'))
  /\ (stored (db w) (TrackID x) = None ->
      db w' = db w /\ GetRating (TrackID x) w' = (Err ErrNoRows, w')).
Proof.
  intros Hf. cbv zeta. unfold UpdateRating. rewrite Exec_succeeds by done.
  split; [done|]. cbn [snd]. split.
  - intros Hs. apply GetRating_found. cbn [db]. by apply stored_update_eq.
  - intros Hn.
    assert (Hd : update_row x (db w) = db w).
    { unfold update_row. unfold stored in Hn.
      by destruct (ratings (db w) !! TrackID x). }
    split; [done|]. apply GetRating_missing. cbn [db]. by rewrite Hd.
Qed.

Lemma UpdateRating_then_GetRating_witness :
  let w := mkWorld (two_tracks 1200 1200) [] 0 in
  let x := mkRating 2 1250 3 1 0 9 in
  let w' := snd (UpdateRating x w) in
  fst (UpdateRating x w) = Ok tt
  /\ (is_Some (stored (db w) 2) -> GetRating 2 w' = (Ok x, w'))
  /\ (stored (db w) 2 = None ->
      db w' = db w /\ GetRating 2 w' = (Err ErrNoRows, w')).
Proof.
  apply (UpdateRating_then_GetRating
           (mkWorld (two_tracks 1200 1200) [] 0) (mkRating 2 1250 3 1 0 9)).
  discriminate.
Defined.

(** ** The matchmaker: opponents *)

Lemma consider_sound (ranged : bool) (t x : TrackWithRating)
    (seen : list TrackWithRating) (acc : option TrackWithRating * Z) :
  (forall b, fst acc = Some b -> In b seen /\ ID (track b) <> ID (track t)) ->
  forall b, fst (consider ranged t acc x) = Some b ->
            In b (seen ++ [x]) /\ ID (track b) <> ID (track t).
Proof.
  intros Hacc b. destruct acc as [best bd]. unfold consider.
  destruct (Z.eqb_spec (ID (track x)) (ID (track t))) as [Hid|Hid].
  - intros Hb. destruct (Hacc b Hb). split; [apply in_or_app|]; auto.
  - destruct (_ && _); cbn [fst].
    + intros [= <-]. split; [apply in_or_app; right; by left | done].
    + intros Hb. destruct (Hacc b Hb). split; [apply in_or_app|]; auto.
Qed.

Lemma loop_sound (ranged : bool) (t : TrackWithRating)
    (candidates : list TrackWithRating) (bd : Z) :
  forall b, fst (fold_left (consider ranged t) candidates (None, bd)) = Some b ->
            In b candidates /\ ID (track b) <> ID (track t).
Proof.
  induction candidates as [|x seen IH] using rev_ind; [done|].
  rewrite fold_left_app. cbn [fold_left]. by apply consider_sound.
Qed.

Lemma loop_all_target (ranged : bool) (t : TrackWithRating)
    (candidates : list TrackWithRating) (acc : option TrackWithRating * Z) :
  (forall c, In c candidates -> ID (track c) = ID (track t)) ->
  fold_left (consider ranged t) candidates acc = acc.
Proof.
  revert acc. induction candidates as [|x cs IH]; intros acc Hall; [done|].
  cbn [fold_left].
  assert (Hx : consider ranged t acc x = acc).
  { destruct acc as [best bd]. unfold consider.
    rewrite (proj2 (Z.eqb_eq _ _)); [done|]. apply Hall. by left. }
  rewrite Hx. apply IH. intros c Hc. apply Hall. by right.
Qed.

(** X12.  Whatever the ratings, an opponent that [findBestOpponent]
    hands back is one of the candidates and is not the target; and when
    every candidate carries the identifier of the target it hands back
    nil. *)
Theorem findBestOpponent_sound (t : TrackWithRating)
    (candidates : list TrackWithRating) :
  (forall b, findBestOpponent t candidates = Some b ->
             In b candidates /\ ID (track b) <> ID (track t))
  /\ ((forall c, In c candidates -> ID (track c) = ID (track t)) ->
      findBestOpponent t candidates = None).
Proof.
  unfold findBestOpponent. split.
  - intros b.
    destruct (fold_left (consider true t) candidates (None, GoInt.MaxInt))
      as [[b1|] bd] eqn:E1; cbn [fst].
    + intros [= <-]. apply (loop_sound true t candidates GoInt.MaxInt).
      by rewrite E1.
    + apply loop_sound.
  - intros Hall. rewrite !loop_all_target by done. done.
Qed.

Lemma abs_sub_swap (x y : Z) : abs (GoInt.sub x y) = abs (GoInt.sub y x).
Proof.
  unfold GoInt.sub.
  destruct (Z.eq_dec (GoInt.wrap64 (x - y)) GoInt.MinInt) as [Hm|Hm].
  - assert (GoInt.wrap64 (y - x) = GoInt.MinInt); [|congruence].
    revert Hm. unfold GoInt.wrap64, GoInt.MinInt. intros Hm.
    pose proof (Z.div_mod (x - y + 2 ^ 63) (2 ^ 64) ltac:(lia)) as Hd.
    assert (H0 : (x - y + 2 ^ 63) mod 2 ^ 64 = 0) by lia.
    rewrite H0 in Hd.
    replace (y - x + 2 ^ 63)
      with (0 + (1 - (x - y + 2 ^ 63) / 2 ^ 64) * 2 ^ 64) by lia.
    rewrite Z_mod_plus_full. done.
  - replace (y - x) with (- (x - y)) by lia. rewrite wrap64_opp by done.
    pose proof (wrap64_range (x - y)) as Hr.
    unfold GoInt.in_int, GoInt.MinInt, GoInt.MaxInt in *.
    set (v := GoInt.wrap64 (x - y)) in *. unfold abs, GoInt.neg.
    destruct (Z.ltb_spec v 0), (Z.ltb_spec (- v) 0); try lia.
    + apply wrap64_id. unfold GoInt.in_int, GoInt.MinInt, GoInt.MaxInt. lia.
    + rewrite Z.opp_involutive. symmetry.
      apply wrap64_id. unfold GoInt.in_int, GoInt.MinInt, GoInt.MaxInt. lia.
Qed.

(** X13.  The quality of a match does not depend on the side each track
    is on, and it is [Exploration] exactly when one of the two tracks has
    fewer than [MinBattlesForBalance] battles. *)
Theorem GetMatchQuality_symmetric (a b : TrackWithRating) :
  GetMatchQuality a b = GetMatchQuality b a
  /\ (GetMatchQuality a b = "Exploration"%string
      <-> is_underplayed a = true \/ is_underplayed b = true).
Proof.
  unfold GetMatchQuality, is_underplayed, battles. split.
  - rewrite (abs_sub_swap (Elo (rating a)) (Elo (rating b))).
    by rewrite orb_comm.
  - rewrite <- orb_true_iff.
    destruct (_ || _); [done|].
    split; [|done].
    repeat (destruct (_ <=? _); [discriminate|]). discriminate.
Qed.

(** ** The matchmaker: choosing the mode *)

Lemma half_lt_ratio (u n : Z) :
  0 <= u <= n -> (1 # 2 < inject_Z u / inject_Z n)%Q <-> n < 2 * u.
Proof.
  intros Hun. destruct n as [|p|p]; [| |lia].
  - assert (u = 0) as -> by lia. by vm_compute.
  - unfold Qlt, Qdiv, Qmult, Qinv, inject_Z. cbn [Qnum Qden].
    rewrite Pos.mul_1_l. lia.
Qed.

Lemma rate_threshold (k : Z) :
  (inject_Z k / inject_Z (2 ^ 53) < ExplorationRate)%Q
  <-> k < 1351079888211149.
Proof.
  unfold ExplorationRate, Qlt, Qdiv, Qmult, Qinv, inject_Z.
  cbn [Qnum Qden]. change (2 ^ 53) with 9007199254740992.
  cbn [Qnum Qden].
  change (2 ^ 55)%positive with 36028797018963968%positive.
  lia.
Qed.

Lemma underplayed_count (tracks : list TrackWithRating) :
  0 <= len (List.filter is_underplayed tracks) <= len tracks.
Proof.
  unfold len. pose proof (filter_length_le is_underplayed tracks). lia.
Qed.

(** X14.  [shouldExplore] answers yes, without drawing, when more than
    half of the tracks are underplayed.  Otherwise it consumes one draw
    [d] and answers yes exactly when [d mod 2^53] is below
    1351079888211149, that is for a share of the draws within [2^-53] of
    0.15; without a draw left it does not return. *)
Theorem shouldExplore_policy (tracks : list TrackWithRating) :
  let u := len (List.filter is_underplayed tracks) in
  (len tracks < 2 * u ->
   forall rng, shouldExplore tracks rng = Some (true, rng))
  /\ (2 * u <= len tracks ->
      shouldExplore tracks [] = None
      /\ forall d rest,
           shouldExplore tracks (d :: rest)
           = Some (bool_decide (d mod 2 ^ 53 < 1351079888211149), rest)).
Proof.
  cbv zeta. pose proof (underplayed_count tracks) as Hu.
  unfold shouldExplore. split.
  - intros Hmaj rng. destruct (Qlt_le_dec _ _) as [_|Hle]; [done|].
    apply (half_lt_ratio _ _ Hu) in Hmaj. by apply Qle_not_lt in Hle.
  - intros Hmin. destruct (Qlt_le_dec _ _) as [Hlt|_].
    { apply (half_lt_ratio _ _ Hu) in Hlt. lia. }
    split; [done|]. intros d rest. cbn [Float64]. do 2 f_equal.
    destruct (Qlt_le_dec _ _) as [Hlt|Hle].
    + apply rate_threshold in Hlt. by rewrite bool_decide_eq_true_2.
    + rewrite bool_decide_eq_false_2; [done|].
      intros Hk. apply rate_threshold in Hk. by apply Qle_not_lt in Hle.
Qed.

(** ** The matchmaker: the pair handed back *)

Lemma othersFrom_In (i leftID : Z) (tracks : list TrackWithRating)
    (x : TrackWithRating) :
  In x (othersFrom i leftID tracks) -> In x tracks.
Proof.
  revert i. induction tracks as [|t rest IH]; intros i; [done|].
  cbn [othersFrom]. destruct (i =? leftID).
  - intros H. right. by eapply IH.
  - intros [<-|H]; [by left|]. right. by eapply IH.
Qed.

Lemma othersFrom_past (i leftID : Z) (tracks : list TrackWithRating) :
  leftID < i -> othersFrom i leftID tracks = tracks.
Proof.
  revert i. induction tracks as [|t rest IH]; intros i Hi; [done|].
  cbn [othersFrom]. destruct (Z.eqb_spec i leftID); [lia|].
  f_equal. apply IH. lia.
Qed.

Lemma othersFrom_length (i leftID : Z) (tracks : list TrackWithRating) :
  (length tracks <= S (length (othersFrom i leftID tracks)))%nat.
Proof.
  revert i. induction tracks as [|t rest IH]; intros i; [simpl; lia|].
  cbn [othersFrom]. destruct (Z.eqb_spec i leftID).
  - rewrite othersFrom_past by lia. simpl. lia.
  - specialize (IH (i + 1)). simpl. lia.
Qed.

Lemma at_index_In {A : Type} (l : list A) (i : Z) (x : A) :
  at_index l i = Some x -> In x l.
Proof.
  unfold at_index. intros H. apply list_elem_of_In.
  by eapply list_elem_of_lookup_2.
Qed.

Lemma redraw_differs (n leftIdx : Z) (rng : Rand) :
  0 < n ->
  forall rightIdx rightIdx' rng',
    0 <= rightIdx < n ->
    redraw n leftIdx rightIdx rng = Some (rightIdx', rng') ->
    0 <= rightIdx' < n /\ rightIdx' <> leftIdx.
Proof.
  intros Hn. induction rng as [|d rest IH]; intros ri rj rng' Hri;
    cbn [redraw]; destruct (Z.eqb_spec ri leftIdx); try done.
  - intros [= <- <-]. done.
  - apply IH. by apply Z.mod_pos_bound.
  - intros [= <- <-]. done.
Qed.

Lemma randomMatch_two (tracks : list TrackWithRating) (rng rng' : Rand)
    (a b : option TrackWithRating) :
  2 <= len tracks ->
  randomMatch tracks rng = Some ((a, b), rng') ->
  exists i j ta tb,
    i <> j /\ tracks !! i = Some ta /\ tracks !! j = Some tb
    /\ a = Some ta /\ b = Some tb.
Proof.
  intros Hlen. unfold randomMatch.
  destruct (Z.ltb_spec (len tracks) 2); [lia|].
  destruct rng as [|d1 [|d2 rng2]]; cbn [Intn]; try done.
  destruct (redraw (len tracks) (d1 mod len tracks) (d2 mod len tracks) rng2)
    as [[rj rng3]|] eqn:Hre; [|done].
  intros [= <- <- <-].
  pose proof (Z.mod_pos_bound d1 (len tracks) ltac:(lia)) as Hi.
  pose proof (Z.mod_pos_bound d2 (len tracks) ltac:(lia)) as Hj0.
  assert (Hn : 0 < len tracks) by lia.
  destruct (redraw_differs (len tracks) (d1 mod len tracks) rng2 Hn
              _ _ _ Hj0 Hre) as [Hj Hne].
  unfold at_index, len in *.
  destruct (lookup_lt_is_Some_2 tracks (Z.to_nat (d1 mod Z.of_nat (length tracks))))
    as [ta Hta]; [lia|].
  destruct (lookup_lt_is_Some_2 tracks (Z.to_nat rj)) as [tb Htb]; [lia|].
  exists (Z.to_nat (d1 mod Z.of_nat (length tracks))), (Z.to_nat rj), ta, tb.
  rewrite Hta, Htb. repeat split; try done. lia.
Qed.

Lemma len_positive {A : Type} (l : list A) : 0 < len l -> l <> [].
Proof. unfold len. destruct l; simpl; [lia|done]. Qed.

Lemma redraw_other (n leftIdx rightIdx : Z) (rng : Rand) :
  rightIdx <> leftIdx -> redraw n leftIdx rightIdx rng = Some (rightIdx, rng).
Proof.
  intros Hne. destruct rng; cbn [redraw];
    by destruct (Z.eqb_spec rightIdx leftIdx).
Qed.

Lemma redraw_eventually (n leftIdx d : Z) (same rest : Rand) :
  Forall (fun x => x mod n = leftIdx) same -> d mod n <> leftIdx ->
  redraw n leftIdx leftIdx (same ++ d :: rest) = Some (d mod n, rest).
Proof.
  intros Hsame Hd. induction Hsame as [|x same Hx Hsame IH].
  - cbn [app redraw]. rewrite Z.eqb_refl. by apply redraw_other.
  - cbn [app redraw]. rewrite Z.eqb_refl. by rewrite Hx.
Qed.

(** X15.  Out of fewer than two tracks [randomMatch] hands back nil
    twice without drawing.  Out of two tracks or more, once it has drawn
    the left index, it draws until a draw gives another index and hands
    back the tracks at the two indices, leaving the draws that follow;
    and whenever it hands back a pair, the two tracks stand at two
    different positions of the slice, so that they are two different
    tracks when identifiers are not repeated. *)
Theorem randomMatch_distinct (tracks : list TrackWithRating) :
  (len tracks < 2 ->
   forall rng, randomMatch tracks rng = Some ((None, None), rng))
  /\ (2 <= len tracks ->
      (forall d1 same d rest,
         Forall (fun x => x mod len tracks = d1 mod len tracks) same ->
         d mod len tracks <> d1 mod len tracks ->
         exists ta tb,
           randomMatch tracks (d1 :: same ++ d :: rest)
           = Some ((Some ta, Some tb), rest)
           /\ at_index tracks (d1 mod len tracks) = Some ta
           /\ at_index tracks (d mod len tracks) = Some tb)
      /\ (forall rng rng' a b,
            randomMatch tracks rng = Some ((a, b), rng') ->
            exists i j ta tb,
              i <> j /\ tracks !! i = Some ta /\ tracks !! j = Some tb
              /\ a = Some ta /\ b = Some tb
              /\ (NoDup (map (fun t => ID (track t)) tracks) ->
                  ID (track ta) <> ID (track tb)))).
Proof.
  split; [|intros Hge; split].
  - intros Hlt rng. unfold randomMatch.
    by destruct (Z.ltb_spec (len tracks) 2); [|lia].
  - intros d1 same d rest Hsame Hd.
    assert (Hne : tracks <> []) by (apply len_positive; lia).
    destruct (at_index_mod tracks d1 Hne) as (ta & Hta & _).
    destruct (at_index_mod tracks d Hne) as (tb & Htb & _).
    exists ta, tb. split; [|done]. unfold randomMatch.
    destruct (Z.ltb_spec (len tracks) 2); [lia|]. cbn [Intn].
    destruct same as [|x same]; cbn [app Intn].
    + rewrite redraw_other by done. by rewrite Hta, Htb.
    + apply Forall_cons in Hsame as [-> Hsame].
      rewrite redraw_eventually by done. by rewrite Hta, Htb.
  - intros rng rng' a b H.
    destruct (randomMatch_two tracks rng rng' a b Hge H)
      as (i & j & ta & tb & Hne & Hi & Hj & -> & ->).
    exists i, j, ta, tb. repeat split; try done.
    intros Hnd Heq. apply Hne.
    eapply (NoDup_lookup _ i j (ID (track ta))); [exact Hnd| |].
    + by rewrite list_lookup_fmap, Hi.
    + by rewrite list_lookup_fmap, Hj, Heq.
Qed.

Lemma randomMatch_from (tracks : list TrackWithRating) (rng rng' : Rand)
    (p : Pair) :
  randomMatch tracks rng = Some (p, rng') -> drawn_from tracks p.
Proof.
  destruct p as [a b]. intros H.
  destruct (Z.ltb_spec (len tracks) 2) as [Hlt|Hge].
  - unfold randomMatch in H. destruct (Z.ltb_spec (len tracks) 2); [|lia].
    injection H as <- <- <-. by split.
  - destruct (randomMatch_two tracks rng rng' a b Hge H)
      as (i & j & ta & tb & _ & Hi & Hj & -> & ->).
    split; intros x [= <-]; apply list_elem_of_In;
      by eapply list_elem_of_lookup_2.
Qed.

Lemma balancedMatch_from (tracks : list TrackWithRating) (rng rng' : Rand)
    (p : Pair) :
  balancedMatch tracks rng = Some (p, rng') -> drawn_from tracks p.
Proof.
  unfold balancedMatch.
  destruct (len (List.filter is_experienced tracks) <? 2);
    [apply randomMatch_from|].
  destruct rng as [|d rng1]; cbn [Intn]; [done|].
  destruct (at_index _ _) as [leftTrack|] eqn:Hat; [|done].
  intros [= <- <-]. apply at_index_In in Hat. apply filter_In in Hat as [Hat _].
  split; cbn [fst snd]; intros x.
  - by intros [= <-].
  - unfold findBestOpponent.
    destruct (fold_left (consider true leftTrack) _ (None, GoInt.MaxInt))
      as [[b1|] bd] eqn:E1; cbn [fst].
    + intros [= ->].
      destruct (loop_sound true leftTrack
                  (List.filter is_experienced tracks) GoInt.MaxInt x)
        as [Hin _]; [by rewrite E1|].
      by apply filter_In in Hin as [Hin _].
    + intros Hb. apply loop_sound in Hb as [Hin _].
      by apply filter_In in Hin as [Hin _].
Qed.

Lemma explorationMatch_from (tracks : list TrackWithRating) (rng rng' : Rand)
    (p : Pair) :
  explorationMatch tracks rng = Some (p, rng') -> drawn_from tracks p.
Proof.
  unfold explorationMatch.
  destruct (len (List.filter is_underplayed tracks) =? 0);
    [apply balancedMatch_from|].
  destruct rng as [|d rng1]; cbn [Intn]; [done|].
  destruct (at_index _ _) as [leftTrack|] eqn:Hat; [|done].
  apply at_index_In in Hat. apply filter_In in Hat as [Hat _].
  destruct (len (othersFrom 0 (ID (track leftTrack)) tracks) =? 0).
  { intros [= <- <-]. by split. }
  destruct rng1 as [|d2 rng2]; cbn [Intn]; [done|].
  intros [= <- <-]. split; cbn [fst snd]; intros x.
  - by intros [= <-].
  - intros Hx. apply at_index_In in Hx. by eapply othersFrom_In.
Qed.

Lemma shouldExplore_drawn (tracks : list TrackWithRating) (d : Z)
    (rest : Rand) :
  2 * len (List.filter is_underplayed tracks) <= len tracks ->
  1351079888211149 <= d mod 2 ^ 53 ->
  shouldExplore tracks (d :: rest) = Some (false, rest).
Proof.
  intros Hmin Hd. unfold shouldExplore.
  destruct (Qlt_le_dec _ _) as [Hlt|_].
  { apply (half_lt_ratio _ _ (underplayed_count tracks)) in Hlt. lia. }
  cbn [Float64]. destruct (Qlt_le_dec _ _) as [Hlt|_]; [|done].
  apply rate_threshold in Hlt. lia.
Qed.

(** X16.  [GetNextMatch] reports a failed query as an error, and fewer
    than two tracks as an error, both without drawing.  With two tracks or
    more, whenever it returns it returns no error, neither track of the
    pair is nil and both are tracks of the collection; and it does return
    such a pair, of two experienced tracks with different identifiers, from
    two draws of which the first chooses the balanced mode, when at most
    half of the tracks are underplayed, two or more are experienced,
    identifiers are not repeated and the ratings are far from the ends of
    [int]. *)
Theorem GetNextMatch_pair_from_collection (tracks : list TrackWithRating) :
  (forall e rng, GetNextMatch (Err e) rng = Some (inl ErrQuery, rng))
  /\ (len tracks < 2 ->
      forall rng,
        GetNextMatch (Ok tracks) rng = Some (inl ErrTooFewTracks, rng))
  /\ (2 <= len tracks ->
      (forall rng rng' res,
         GetNextMatch (Ok tracks) rng = Some (res, rng') ->
         exists l r, res = inr (Some l, Some r)
                     /\ In l tracks /\ In r tracks)
      /\ (2 * len (List.filter is_underplayed tracks) <= len tracks ->
          2 <= len (List.filter is_experienced tracks) ->
          NoDup (map (fun t => ID (track t)) tracks) ->
          Forall elo_bounded tracks ->
          forall d0 d1 rest,
            1351079888211149 <= d0 mod 2 ^ 53 ->
            exists l r,
              GetNextMatch (Ok tracks) (d0 :: d1 :: rest)
              = Some (inr (Some l, Some r), rest)
              /\ In l tracks /\ In r tracks
              /\ is_experienced l = true /\ is_experienced r = true
              /\ ID (track r) <> ID (track l))).
Proof.
  split; [done|]. split.
  { intros Hlt rng. unfold GetNextMatch.
    by destruct (Z.ltb_spec (len tracks) 2); [|lia]. }
  intros Hge. split.
  - intros rng rng' res. unfold GetNextMatch.
    destruct (Z.ltb_spec (len tracks) 2) as [Hlt|_]; [lia|].
    intros H.
    destruct (shouldExplore tracks rng) as [[explore rng1]|]; [|done].
    assert (Hmode : forall p rng2,
      (if explore then explorationMatch tracks rng1
       else balancedMatch tracks rng1) = Some (p, rng2) ->
      drawn_from tracks p).
    { intros p rng2. destruct explore;
        [apply explorationMatch_from | apply balancedMatch_from]. }
    destruct (if explore then explorationMatch tracks rng1
              else balancedMatch tracks rng1)
      as [[[a b] rng2]|]; [|done].
    destruct (Hmode (a, b) rng2 eq_refl) as [Ha Hb]. cbn [fst snd] in *.
    assert (Hrandom :
      match randomMatch tracks rng2 with
      | Some (p, rng3) => Some (inr p, rng3)
      | None => None
      end = Some (res, rng') ->
      exists l r, res = inr (Some l, Some r) /\ In l tracks /\ In r tracks).
    { destruct (randomMatch tracks rng2) as [[[a' b'] rng3]|] eqn:Hr; [|done].
      intros [= <- <-].
      destruct (randomMatch_two tracks rng2 rng3 a' b' Hge Hr)
        as (i & j & ta & tb & _ & Hi & Hj & -> & ->).
      exists ta, tb. split; [done|].
      split; apply list_elem_of_In; by eapply list_elem_of_lookup_2. }
    destruct a as [l|]; [destruct b as [r|]|]; try by apply Hrandom.
    injection H as <- <-. exists l, r. auto.
  - intros Hmin Hexp Hnd Hall d0 d1 rest Hd0. unfold GetNextMatch.
    destruct (Z.ltb_spec (len tracks) 2) as [Hlt|_]; [lia|].
    rewrite shouldExplore_drawn by done. unfold balancedMatch.
    set (experienced := List.filter is_experienced tracks) in *.
    destruct (Z.ltb_spec (len experienced) 2) as [Hlt|_]; [lia|].
    cbn [Intn].
    assert (Hbounded : Forall elo_bounded experienced).
    { apply List.Forall_forall. intros x [Hx _]%filter_In.
      by eapply List.Forall_forall in Hall. }
    destruct (at_index_mod experienced d1) as (l & -> & Hl);
      [apply len_positive; lia|].
    assert (Hlb : elo_bounded l) by (by eapply List.Forall_forall in Hbounded).
    destruct (findBestOpponent_closest l experienced Hlb Hbounded)
      as (r & -> & Hr & Hrid & _).
    { apply other_candidate; [unfold len in Hexp; lia|].
      by apply NoDup_map_filter. }
    apply filter_In in Hl as [Hl Hle]. apply filter_In in Hr as [Hr Hre].
    exists l, r. done.
Qed.

Lemma shouldExplore_forced (tracks : list TrackWithRating) (rng : Rand) :
  len tracks < 2 * len (List.filter is_underplayed tracks) ->
  shouldExplore tracks rng = Some (true, rng).
Proof.
  intros Hmaj. unfold shouldExplore.
  destruct (Qlt_le_dec _ _) as [_|Hle]; [done|].
  apply (half_lt_ratio _ _ (underplayed_count tracks)) in Hmaj.
  by apply Qle_not_lt in Hle.
Qed.

Lemma len_nonempty {A : Type} (l : list A) : 0 < len l -> l <> [].
Proof. unfold len. destruct l; simpl; [lia|done]. Qed.

(** X17.  When two tracks or more are known and more than half of them
    are underplayed, [GetNextMatch] with two draws left consumes both and
    hands back a pair whose left track is underplayed, both tracks being
    tracks of the collection. *)
Theorem GetNextMatch_explores_immature_collection
    (tracks : list TrackWithRating) (d1 d2 : Z) (rest : Rand) :
  2 <= len tracks ->
  len tracks < 2 * len (List.filter is_underplayed tracks) ->
  exists l r,
    GetNextMatch (Ok tracks) (d1 :: d2 :: rest)
    = Some (inr (Some l, Some r), rest)
    /\ is_underplayed l = true /\ In l tracks /\ In r tracks.
Proof.
  intros Hlen Hmaj. unfold GetNextMatch.
  destruct (Z.ltb_spec (len tracks) 2); [lia|].
  rewrite shouldExplore_forced by done. unfold explorationMatch.
  set (underplayed := List.filter is_underplayed tracks) in *.
  destruct (Z.eqb_spec (len underplayed) 0); [lia|].
  cbn [Intn].
  destruct (at_index_mod underplayed d1) as (l & -> & Hl);
    [apply len_nonempty; lia|].
  apply filter_In in Hl as [Hl Hu].
  set (allOthers := othersFrom 0 (ID (track l)) tracks).
  assert (Hothers : 0 < len allOthers).
  { pose proof (othersFrom_length 0 (ID (track l)) tracks).
    unfold len, allOthers in *. lia. }
  destruct (Z.eqb_spec (len allOthers) 0); [lia|].
  destruct (at_index_mod allOthers d2) as (r & -> & Hr);
    [by apply len_nonempty|].
  exists l, r. repeat split; try done. by eapply othersFrom_In.
Qed.

Lemma GetNextMatch_explores_immature_collection_witness :
  let tracks := [a_track 1 1500 5; a_track 2 1200 0; a_track 3 1200 1] in
  exists l r,
    GetNextMatch (Ok tracks) [1; 0; 6] = Some (inr (Some l, Some r), [6])
    /\ is_underplayed l = true /\ In l tracks /\ In r tracks.
Proof.
  apply (GetNextMatch_explores_immature_collection
           [a_track 1 1500 5; a_track 2 1200 0; a_track 3 1200 1] 1 0 [6]);
    [vm_compute; discriminate | vm_compute; reflexivity].
Defined.

(** ** The matchmaker: recent opponents *)

Lemma scanDuels_cons (trackID limit : Z) (duel : Duel) (rest : list Duel)
    (opponents : list Z) (seen : gset Z) :
  scanDuels trackID limit (duel :: rest) opponents seen
  = match opponent_of trackID duel with
    | None => scanDuels trackID limit rest opponents seen
    | Some o =>
        if bool_decide (o ∈ seen)
        then scanDuels trackID limit rest opponents seen
        else if limit <=? len (opponents ++ [o]) then opponents ++ [o]
             else scanDuels trackID limit rest (opponents ++ [o])
                            ({[o]} ∪ seen)
    end.
Proof.
  cbn [scanDuels]. unfold opponent_of.
  destruct (LeftTrackID duel =? trackID); [done|].
  by destruct (RightTrackID duel =? trackID).
Qed.

Lemma len_snoc {A : Type} (l : list A) (x : A) : len (l ++ [x]) = len l + 1.
Proof. unfold len. rewrite length_app. simpl. lia. Qed.

Lemma scanDuels_spec (trackID limit : Z) (duels : list Duel) :
  forall (opponents : list Z) (seen : gset Z),
    NoDup opponents -> (forall o, o ∈ seen <-> o ∈ opponents) ->
    len opponents < limit \/ opponents = [] ->
    exists ext,
      scanDuels trackID limit duels opponents seen = opponents ++ ext
      /\ ext `sublist_of` omap (opponent_of trackID) duels
      /\ NoDup (opponents ++ ext)
      /\ len (opponents ++ ext) <= Z.max limit 1
      /\ (len (opponents ++ ext) < limit ->
          forall o, o ∈ omap (opponent_of trackID) duels ->
                    o ∈ opponents ++ ext).
Proof.
  induction duels as [|duel rest IH]; intros opponents seen Hnd Hseen Hlen.
  - exists []. rewrite app_nil_r. cbn [scanDuels omap list_omap].
    split; [done|]. split; [constructor|]. split; [done|].
    split; [destruct Hlen as [?| ->]; [lia | change (len []) with 0; lia]|].
    intros _ o Ho. by apply elem_of_nil in Ho.
  - rewrite scanDuels_cons. cbn [omap list_omap].
    destruct (opponent_of trackID duel) as [o|]; [|by apply IH].
    destruct (bool_decide_reflect (o ∈ seen)) as [Hin|Hnin].
    + destruct (IH opponents seen Hnd Hseen Hlen)
        as (ext & -> & Hsub & Hnd' & Hl & Hall).
      exists ext. split; [done|]. split; [by constructor|].
      do 2 (split; [done|]). intros Hlt o' [->|Ho']%elem_of_cons.
      * apply elem_of_app. left. by apply Hseen.
      * by apply Hall.
    + assert (Hnd1 : NoDup (opponents ++ [o])).
      { apply NoDup_app. split; [done|]. split; [|apply NoDup_singleton].
        intros x Hx ->%list_elem_of_singleton. apply Hnin. by apply Hseen. }
      destruct (Z.leb_spec limit (len (opponents ++ [o]))) as [Hfull|Hroom].
      * exists [o]. split; [done|].
        split; [apply sublist_skip, sublist_nil_l|]. split; [done|].
        split.
        { rewrite len_snoc in *.
          destruct Hlen as [?| ->]; [lia | change (len []) with 0; lia]. }
        intros Hlt. lia.
      * destruct (IH (opponents ++ [o]) ({[o]} ∪ seen) Hnd1)
          as (ext & -> & Hsub & Hnd' & Hl & Hall).
        { intros x. rewrite elem_of_union, elem_of_singleton, elem_of_app,
            list_elem_of_singleton, Hseen. tauto. }
        { by left. }
        exists (o :: ext). rewrite <- !app_assoc in *. cbn [app] in *.
        split; [done|]. split; [by apply sublist_skip|].
        do 2 (split; [done|]). intros Hlt o' [->|Ho']%elem_of_cons.
        -- apply elem_of_app. right. by left.
        -- by apply Hall.
Qed.

(** X18.  Out of the duels handed to it, most recent first,
    [GetRecentOpponents] gives opponents of the track in the order of
    their duels and without repeating one, never more than [limit] of
    them (one when [limit] is below one); and when it gives fewer than
    [limit], every opponent the duels show is among them. *)
Theorem GetRecentOpponents_distinct_in_order (duels : list Duel)
    (trackID limit : Z) :
  exists recent,
    GetRecentOpponents (Ok duels) trackID limit = Ok recent
    /\ recent `sublist_of` omap (opponent_of trackID) duels
    /\ NoDup recent
    /\ len recent <= Z.max limit 1
    /\ (len recent < limit ->
        forall o, o ∈ omap (opponent_of trackID) duels -> o ∈ recent).
Proof.
  destruct (scanDuels_spec trackID limit duels [] ∅)
    as (ext & E & H); [constructor | set_solver | by right |].
  exists ext. cbn [app] in *. unfold GetRecentOpponents. by rewrite E.
Qed.

Lemma findBestOpponent_member (t b : TrackWithRating)
    (candidates : list TrackWithRating) :
  findBestOpponent t candidates = Some b ->
  In b candidates /\ ID (track b) <> ID (track t).
Proof.
  unfold findBestOpponent.
  destruct (fold_left (consider true t) candidates (None, GoInt.MaxInt))
    as [[b1|] bd] eqn:E1; cbn [fst].
  - intros [= <-]. apply (loop_sound true t candidates GoInt.MaxInt).
    by rewrite E1.
  - apply loop_sound.
Qed.

(** X19.  An opponent that [AvoidRecentOpponent] hands back is one of
    the candidates and is not the target; and as soon as some candidate
    other than the target is not among the recent opponents read from the
    history, neither is the opponent handed back. *)
Theorem AvoidRecentOpponent_avoids (history : Result (list Duel))
    (target b : TrackWithRating) (candidates : list TrackWithRating) :
  AvoidRecentOpponent history target candidates = Some b ->
  In b candidates /\ ID (track b) <> ID (track target)
  /\ forall recent,
       GetRecentOpponents history (ID (track target)) 3 = Ok recent ->
       (exists c, In c candidates /\ ID (track c) <> ID (track target)
                  /\ ID (track c) ∉ recent) ->
       ID (track b) ∉ recent.
Proof.
  unfold AvoidRecentOpponent.
  destruct (GetRecentOpponents history (ID (track target)) 3)
    as [recent|e] eqn:Hrec.
  - set (keep := fun candidate : TrackWithRating =>
        negb (ID (track candidate) =? ID (track target))
        && negb (bool_decide
                   (ID (track candidate) ∈ (list_to_set recent : gset Z)))).
    assert (Hkeep : forall c, keep c = true
              <-> ID (track c) <> ID (track target) /\ ID (track c) ∉ recent).
    { intros c. unfold keep.
      rewrite andb_true_iff, !negb_true_iff, Z.eqb_neq,
        bool_decide_eq_false, elem_of_list_to_set. done. }
    destruct (Z.eqb_spec (len (List.filter keep candidates)) 0) as [Hz|Hnz].
    + intros Hb. apply findBestOpponent_member in Hb as [Hin Hid].
      do 2 (split; [done|]). intros recent' [= <-] (c & Hc & Hcid & Hcr).
      assert (Hf : In c (List.filter keep candidates)).
      { apply filter_In. split; [done|]. by apply Hkeep. }
      unfold len in Hz. destruct (List.filter keep candidates); [done|].
      simpl in Hz. lia.
    + intros Hb. apply findBestOpponent_member in Hb as [Hin Hid].
      apply filter_In in Hin as [Hin Hk]. apply Hkeep in Hk as [_ Hk].
      do 2 (split; [done|]). by intros recent' [= <-] _.
  - intros Hb. apply findBestOpponent_member in Hb as [Hin Hid].
    do 2 (split; [done|]). by intros recent' [=].
Qed.

Lemma AvoidRecentOpponent_avoids_witness :
  let history := Ok [mkDuel 2 1 3 (Some 1) 20; mkDuel 1 2 1 None 10] in
  let target := a_track 1 1500 5 in
  let candidates := [a_track 1 1500 5; a_track 2 1490 6; a_track 3 1495 7;
                     a_track 4 1300 8] in
  In (a_track 4 1300 8) candidates
  /\ ID (track (a_track 4 1300 8)) <> ID (track target)
  /\ forall recent,
       GetRecentOpponents history (ID (track target)) 3 = Ok recent ->
       (exists c, In c candidates /\ ID (track c) <> ID (track target)
                  /\ ID (track c) ∉ recent) ->
       ID (track (a_track 4 1300 8)) ∉ recent.
Proof.
  apply (AvoidRecentOpponent_avoids
           (Ok [mkDuel 2 1 3 (Some 1) 20; mkDuel 1 2 1 None 10])
           (a_track 1 1500 5) (a_track 4 1300 8)
           [a_track 1 1500 5; a_track 2 1490 6; a_track 3 1495 7;
            a_track 4 1300 8]).
  vm_compute. reflexivity.
Defined.

(** ** Statistics *)

Lemma count_step_fold (tracks : list TrackWithRating) :
  forall n e,
    0 <= n -> 0 <= e ->
    n + len tracks <= GoInt.MaxInt -> e + len tracks <= GoInt.MaxInt ->
    exists n' e',
      fold_left count_step tracks (n, e) = (n', e')
      /\ n' = n + len (List.filter is_underplayed tracks)
      /\ n' + e' = n + e + len tracks.
Proof.
  unfold GoInt.MaxInt.
  induction tracks as [|t rest IH]; intros n e Hn He Hnl Hel.
  - exists n, e. unfold len. simpl. split; [done|]. lia.
  - assert (Hlen : len (t :: rest) = len rest + 1) by (unfold len; simpl; lia).
    rewrite Hlen in *. pose proof (underplayed_count rest) as Hu.
    assert (Hr : 0 <= len rest) by (unfold len; lia).
    cbn [fold_left List.filter]. unfold count_step at 2.
    change (GetTotalBattles (rating t) <? MinBattlesForBalance)
      with (is_underplayed t).
    destruct (is_underplayed t).
    + unfold GoInt.incr. rewrite wrap64_id
        by (unfold GoInt.in_int, GoInt.MinInt, GoInt.MaxInt; lia).
      destruct (IH (n + 1) e) as (n' & e' & -> & -> & Hs); try lia.
      exists (n + 1 + len (List.filter is_underplayed rest)), e'.
      split; [done|].
      change (len (t :: List.filter is_underplayed rest))
        with (Z.of_nat (S (length (List.filter is_underplayed rest)))).
      unfold len in *. lia.
    + unfold GoInt.incr. rewrite wrap64_id
        by (unfold GoInt.in_int, GoInt.MinInt, GoInt.MaxInt; lia).
      destruct (IH n (e + 1)) as (n' & e' & -> & -> & Hs); try lia.
      exists (n + len (List.filter is_underplayed rest)), e'.
      split; [done|]. lia.
Qed.

(** X20.  For a collection whose size fits an [int], the statistics of
    the matchmaker count as new the underplayed tracks, and the new and the
    experienced tracks they report add up to the total they report, which
    is the size of the collection. *)
Theorem GetMatchmakingStats_counts (tracks : list TrackWithRating) :
  len tracks <= GoInt.MaxInt ->
  exists stats n e,
    GetMatchmakingStats (Ok tracks) = Ok stats
    /\ stats !! "total_tracks"%string = Some (IntValue (len tracks))
    /\ stats !! "new_tracks"%string = Some (IntValue n)
    /\ stats !! "experienced_tracks"%string = Some (IntValue e)
    /\ n = len (List.filter is_underplayed tracks)
    /\ n + e = len tracks.
Proof.
  intros Hlen. unfold GetMatchmakingStats.
  destruct (count_step_fold tracks 0 0) as (n & e & -> & Hn & Hs);
    [lia | lia | lia | lia |].
  eexists _, n, e. split; [reflexivity|].
  repeat split; try done; try lia.
Qed.

Lemma GetMatchmakingStats_counts_witness :
  let tracks := [a_track 1 1500 5; a_track 2 1200 0; a_track 3 1200 1] in
  exists stats n e,
    GetMatchmakingStats (Ok tracks) = Ok stats
    /\ stats !! "total_tracks"%string = Some (IntValue (len tracks))
    /\ stats !! "new_tracks"%string = Some (IntValue n)
    /\ stats !! "experienced_tracks"%string = Some (IntValue e)
    /\ n = len (List.filter is_underplayed tracks)
    /\ n + e = len tracks.
Proof.
  apply (GetMatchmakingStats_counts
           [a_track 1 1500 5; a_track 2 1200 0; a_track 3 1200 1]).
  vm_compute. discriminate.
Defined.

Lemma stats_step_fold (B : Z) (tracks : list TrackWithRating) :
  Forall (fun t => - B <= Elo (rating t) <= B) tracks ->
  forall total lo hi,
    - GoInt.MaxInt <= total - len tracks * B ->
    total + len tracks * B <= GoInt.MaxInt ->
    exists total' lo' hi',
      fold_left stats_step tracks (total, lo, hi) = (total', lo', hi')
      /\ lo' <= lo /\ hi <= hi'
      /\ (forall t, In t tracks -> lo' <= Elo (rating t) <= hi')
      /\ (lo' = lo \/ exists t, In t tracks /\ Elo (rating t) = lo')
      /\ (hi' = hi \/ exists t, In t tracks /\ Elo (rating t) = hi')
      /\ total + len tracks * lo' <= total'
      /\ total' <= total + len tracks * hi'.
Proof.
  unfold GoInt.MaxInt.
  induction tracks as [|t rest IH]; intros Hall total lo hi Hlo Hhi.
  - exists total, lo, hi. change (len []) with 0.
    split; [done|]. do 2 (split; [lia|]). split; [by intros t []|].
    do 2 (split; [by left|]). lia.
  - apply Forall_cons in Hall as [Ht Hrest].
    assert (Hlen : len (t :: rest) = len rest + 1) by (unfold len; simpl; lia).
    assert (Hr : 0 <= len rest) by (unfold len; lia).
    rewrite Hlen in *. cbn [fold_left]. unfold stats_step at 2.
    unfold GoInt.add. rewrite wrap64_id
      by (unfold GoInt.in_int, GoInt.MinInt, GoInt.MaxInt; nia).
    set (e := Elo (rating t)) in *.
    destruct (IH Hrest (total + e) (if e <? lo then e else lo)
                (if hi <? e then e else hi))
      as (total' & lo' & hi' & -> & Hl & Hh & Hin & Hla & Hha & Ht1 & Ht2);
      [nia | nia |].
    exists total', lo', hi'. split; [done|].
    destruct (Z.ltb_spec e lo), (Z.ltb_spec hi e);
      (split; [lia|]); (split; [lia|]);
      (split; [intros x [<-|Hx]; [fold e; lia | by apply Hin]|]);
      (split; [destruct Hla as [->|(x & Hx & <-)];
                 [first [by left | right; exists t; split; [by left|done]]
                 | right; exists x; split; [by right|done]]|]);
      (split; [destruct Hha as [->|(x & Hx & <-)];
                 [first [by left | right; exists t; split; [by left|done]]
                 | right; exists x; split; [by right|done]]|]);
      nia.
Qed.

(** X21.  For a collection that is not empty, whose ratings lie within
    [B] of zero and whose size times [B] fits an [int], the statistics of
    the ratings report the size of the collection, the least and the
    greatest rating of its tracks, and an average that lies between the
    two. *)
Theorem GetEloStats_bounds (tracks : list TrackWithRating) (B : Z) :
  tracks <> [] ->
  Forall (fun t => - B <= Elo (rating t) <= B) tracks ->
  len tracks * B <= GoInt.MaxInt ->
  exists stats lo hi avg,
    GetEloStats (Ok tracks) = Ok stats
    /\ stats !! "total_tracks"%string = Some (len tracks)
    /\ stats !! "min_elo"%string = Some lo
    /\ stats !! "max_elo"%string = Some hi
    /\ stats !! "average_elo"%string = Some avg
    /\ (exists t, In t tracks /\ Elo (rating t) = lo)
    /\ (exists t, In t tracks /\ Elo (rating t) = hi)
    /\ (forall t, In t tracks -> lo <= Elo (rating t) <= hi)
    /\ lo <= avg <= hi.
Proof.
  intros Hne Hall HB. unfold GetEloStats.
  destruct tracks as [|first rest] eqn:Etracks; [done|]. rewrite <- Etracks in *.
  assert (Hfirst : In first tracks) by (rewrite Etracks; by left).
  assert (Hn : 0 < len tracks) by (rewrite Etracks; unfold len; simpl; lia).
  pose proof (proj1 (List.Forall_forall _ _) Hall first Hfirst) as Hf.
  destruct (stats_step_fold B tracks Hall 0 (Elo (rating first))
              (Elo (rating first)))
    as (total & lo & hi & -> & Hl & Hh & Hin & Hla & Hha & Ht1 & Ht2);
    [lia | lia |].
  assert (Hlo : lo <= Z.quot total (len tracks)).
  { rewrite <- (Z.quot_mul lo (len tracks)) by lia.
    apply Z.quot_le_mono; lia. }
  assert (Hhi : Z.quot total (len tracks) <= hi).
  { rewrite <- (Z.quot_mul hi (len tracks)) by lia.
    apply Z.quot_le_mono; lia. }
  assert (Hrange : forall t, In t tracks -> - B <= Elo (rating t) <= B).
  { intros t Ht. by apply (proj1 (List.Forall_forall _ _) Hall). }
  assert (Hlo_in : exists t, In t tracks /\ Elo (rating t) = lo).
  { destruct Hla as [->|?]; [by exists first | done]. }
  assert (Hhi_in : exists t, In t tracks /\ Elo (rating t) = hi).
  { destruct Hha as [->|?]; [by exists first | done]. }
  exists (<["total_tracks"%string := len tracks]>
            (<["average_elo"%string := int_div total (len tracks)]>
               (<["min_elo"%string := lo]> (<["max_elo"%string := hi]> ∅)))),
    lo, hi, (int_div total (len tracks)).
  split; [done|]. do 4 (split; [done|]). do 3 (split; [done|]).
  unfold int_div. rewrite wrap64_id; [lia|].
  destruct Hlo_in as (tl & Htl & <-). destruct Hhi_in as (th & Hth & <-).
  pose proof (Hrange tl Htl). pose proof (Hrange th Hth).
  unfold GoInt.in_int, GoInt.MinInt, GoInt.MaxInt in *. nia.
Qed.

Lemma GetEloStats_bounds_witness :
  let tracks := [a_track 1 1500 5; a_track 2 1200 0; a_track 3 1250 1] in
  exists stats lo hi avg,
    GetEloStats (Ok tracks) = Ok stats
    /\ stats !! "total_tracks"%string = Some (len tracks)
    /\ stats !! "min_elo"%string = Some lo
    /\ stats !! "max_elo"%string = Some hi
    /\ stats !! "average_elo"%string = Some avg
    /\ (exists t, In t tracks /\ Elo (rating t) = lo)
    /\ (exists t, In t tracks /\ Elo (rating t) = hi)
    /\ (forall t, In t tracks -> lo <= Elo (rating t) <= hi)
    /\ lo <= avg <= hi.
Proof.
  apply (GetEloStats_bounds
           [a_track 1 1500 5; a_track 2 1200 0; a_track 3 1250 1] 3000).
  - discriminate.
  - repeat constructor; vm_compute; discriminate.
  - vm_compute. discriminate.
Defined.

(** ** The display helpers *)

Lemma length_substring_0 (s : string) :
  forall n, (n <= String.length s)%nat ->
            String.length (substring 0 n s) = n.
Proof.
  induction s as [|c s IH]; intros [|n] Hn; simpl in *; try done; try lia.
  rewrite IH; lia.
Qed.

Lemma prefix_substring_0 (s : string) :
  forall n, String.prefix (substring 0 n s) s = true.
Proof.
  induction s as [|c s IH]; intros [|n]; simpl; try done.
  destruct (Ascii.ascii_dec c c); [apply IH|done].
Qed.

Lemma length_string_app (a b : string) :
  String.length (a ++ b)%string = (String.length a + String.length b)%nat.
Proof. induction a as [|c a IH]; simpl; [done|]. by rewrite IH. Qed.

(** X22.  [truncate] panics on a negative bound.  On any other bound it
    hands back a string of the length of its argument or of the bound,
    whichever is smaller: the argument itself when it fits, a prefix of it
    followed by three dots when it does not and the bound exceeds three,
    and a bare prefix of it otherwise. *)
Theorem truncate_fits (s : string) (max : Z) :
  (max < 0 -> ui.truncate s max = None)
  /\ (0 <= max ->
      exists t,
        ui.truncate s max = Some t
        /\ Z.of_nat (String.length t) = Z.min (Z.of_nat (String.length s)) max
        /\ (Z.of_nat (String.length s) <= max -> t = s)
        /\ (max < Z.of_nat (String.length s) -> 3 < max ->
            exists p, t = (p ++ "...")%string /\ String.prefix p s = true)
        /\ (max < Z.of_nat (String.length s) -> max <= 3 ->
            String.prefix t s = true)).
Proof.
  unfold ui.truncate. split.
  - intros Hneg. destruct (Z.leb_spec (Z.of_nat (String.length s)) max); [lia|].
    destruct (Z.leb_spec max 3); [|lia].
    by destruct (Z.ltb_spec max 0); [|lia].
  - intros Hmax.
    destruct (Z.leb_spec (Z.of_nat (String.length s)) max) as [Hfit|Hlong].
    { exists s. split; [done|]. split; [lia|]. split; [done|].
      split; intros; lia. }
    destruct (Z.leb_spec max 3) as [Hsmall|Hbig].
    + destruct (Z.ltb_spec max 0); [lia|].
      eexists. split; [reflexivity|].
      rewrite length_substring_0 by lia.
      split; [lia|]. split; [lia|]. split; [lia|].
      intros _ _. apply prefix_substring_0.
    + eexists. split; [reflexivity|].
      rewrite length_string_app, length_substring_0 by lia.
      split; [simpl; lia|]. split; [lia|]. split; [|lia].
      intros _ _. eexists. split; [reflexivity|]. apply prefix_substring_0.
Qed.
